(** * fumadocs-mermaid: the block rewriter and the diagram renderer

    A shallow embedding of
      - [packages/fumadocs-mermaid/src/remark-mdx-mermaid.ts]
        ([parseCodeBlockAttributes], [toMDX], [remarkMdxMermaid]) and
      - the renderer component ([buildMermaidConfig], [cachePromise],
        [MermaidContent]),
    followed by the properties of the specification that concern them.

    Conventions of the embedding.
      - A JavaScript string is a [string]: one [ascii] per code unit, so the
        model covers the code units below 256.  White space is the set that
        [String.prototype.trim] and the regular expression class [\s] share,
        cut to that range.
      - A JavaScript number is a binary64, and [number] holds its exact
        value: a decimal that is read (a literal of a JSON text, the digits
        of [parseInt]) is rounded to the nearest double, ties to the even
        significand, and a number is printed with the fewest digits that
        read back as it.
      - A JSON text may name, by an escape of four hexadecimal digits, a
        code unit above 255. Such a text is outside the model, and
        [JSON_parse] has no value for it; [escapes_in_alphabet] tells the
        texts that have no such escape, and the theorems that depend on a
        text being refused by [JSON.parse] are stated for those.
      - [undefined] and an absent property are [None].
      - An object is the list of its own enumerable properties in the order
        in which [Object.keys] and [JSON.stringify] enumerate them. *)

From Stdlib Require Import ZArith Ascii String List Bool Lia DecimalString.
From stdpp Require Import base option list gmap strings.

Local Open Scope Z_scope.

(** ** Characters *)

Definition code (c : ascii) : N := N_of_ascii c.

Definition in_range (lo hi : N) (c : ascii) : bool :=
  ((lo <=? code c) && (code c <=? hi))%N.

(** The double quote and the apostrophe, by their codes. *)
Definition dquote : ascii := "034"%char.
Definition squote : ascii := "039"%char.
Definition backslash : ascii := "092"%char.
Definition newline : ascii := "010"%char.

(** [\s], and the characters [trim] removes: TAB, LF, VT, FF, CR, SP, NBSP. *)
Definition is_space (c : ascii) : bool :=
  in_range 9 13 c || (code c =? 32)%N || (code c =? 160)%N.

(** [\d] and [\w]. *)
Definition is_digit (c : ascii) : bool := in_range 48 57 c.

Definition is_word (c : ascii) : bool :=
  in_range 97 122 c || in_range 65 90 c || is_digit c || (code c =? 95)%N.

Definition digit_value (c : ascii) : N := (code c - 48)%N.

(** ** Strings *)

(** Writes a text that holds double quotes with apostrophes in their place:
    [dq "{'a':'b'}"] is the nine-character text [{"a":"b"}]. *)
Fixpoint dq (s : string) : string :=
  match s with
  | EmptyString => EmptyString
  | String c r => String (if Ascii.eqb c squote then dquote else c) (dq r)
  end.

Definition string_eqb (a b : string) : bool := bool_decide (a = b).

Definition is_empty (s : string) : bool :=
  match s with EmptyString => true | String _ _ => false end.

(** [String.prototype.trimStart], [trimEnd] and [trim]. *)
Fixpoint trimStart (s : string) : string :=
  match s with
  | EmptyString => EmptyString
  | String c r => if is_space c then trimStart r else s
  end.

Fixpoint trimEnd (s : string) : string :=
  match s with
  | EmptyString => EmptyString
  | String c r =>
      let r' := trimEnd r in
      if is_space c && is_empty r' then EmptyString else String c r'
  end.

Definition trim (s : string) : string := trimEnd (trimStart s).

(** The longest prefix whose characters satisfy [p], and what follows it. *)
Fixpoint span (p : ascii -> bool) (s : string) : string * string :=
  match s with
  | EmptyString => (EmptyString, EmptyString)
  | String c r =>
      if p c then let '(a, b) := span p r in (String c a, b)
      else (EmptyString, s)
  end.

(** [s.replaceAll('\\n', '\n')]: every backslash followed by the letter n
    becomes one line feed, left to right. *)
Fixpoint unescape_newlines (s : string) : string :=
  match s with
  | EmptyString => EmptyString
  | String c r =>
      match r with
      | String "n"%char r' =>
          if Ascii.eqb c backslash
          then String newline (unescape_newlines r')
          else String c (unescape_newlines r)
      | _ => String c (unescape_newlines r)
      end
  end.

(** ** Numbers *)

(** A Number value, which is a binary64: [NaN], an infinity, the negative
    zero, or the exact value of a finite double, an integer or [m / 10^d]
    with [m] not a multiple of ten. *)
Inductive number : Type :=
  | NaN
  | Inf (neg : bool)
  | NegZero
  | Int (z : Z)
  | Dec (m : Z) (d : positive).

Global Instance number_eq_dec : EqDecision number.
Proof. solve_decision. Defined.

(** The number [m * 10^e] in normal form. *)
Fixpoint strip_zeros (fuel : nat) (m : Z) (d : Z) : number :=
  match fuel with
  | O => Int m
  | S f =>
      if d <=? 0 then Int m
      else if (m mod 10 =? 0) then strip_zeros f (m / 10) (d - 1)
      else Dec m (Z.to_pos d)
  end.

Definition decimal_number (m e : Z) : number :=
  if m =? 0 then Int 0
  else if 0 <=? e then Int (m * 10 ^ e)
  else strip_zeros (S (Z.to_nat (- e))) m (- e).

(** The fraction [p * 10^x / q] as a numerator and a denominator. *)
Definition scale10 (p q x : Z) : Z * Z :=
  if 0 <=? x then (p * 10 ^ x, q) else (p, q * 10 ^ (- x)).

(** The double nearest to [p / q], for [p] and [q] positive, ties to the
    even significand: the significand [M] and the exponent [e] of the value
    [M * 2^e], with [2^52 <= M < 2^53], or [M < 2^52] and [e = -1074] for
    a subnormal or zero; [None] when the value rounds to an infinity. *)
Definition round_ratio (p q : Z) : option (Z * Z) :=
  let e0 := Z.log2 p - Z.log2 q - 52 in
  let scaled (e : Z) := if 0 <=? e then p / (q * 2 ^ e) else (p * 2 ^ (- e)) / q in
  let e1 := if 2 ^ 52 <=? scaled e0 then e0 else e0 - 1 in
  let e := Z.max e1 (-1074) in
  let '(num, den) := if 0 <=? e then (p, q * 2 ^ e) else (p * 2 ^ (- e), q) in
  let M := num / den in
  let r := num mod den in
  let M := if (den <? 2 * r) || ((den =? 2 * r) && Z.odd M) then M + 1 else M in
  let '(M, e) := if M =? 2 ^ 53 then (2 ^ 52, e + 1) else (M, e) in
  if 971 <? e then None else Some (M, e).

(** The Number value of the decimal [m * 10^x], [m] not negative, with its
    sign: a literal of a JSON text, or the digits [parseInt] has read. *)
Definition Number_of_decimal (neg : bool) (m x : Z) : number :=
  if m =? 0 then (if neg then NegZero else Int 0)
  else
    let '(p, q) := scale10 m 1 x in
    match round_ratio p q with
    | None => Inf neg
    | Some (M, e) =>
        if M =? 0 then (if neg then NegZero else Int 0)
        else
          let s := if neg then - M else M in
          if 0 <=? e then Int (s * 2 ^ e) else decimal_number (s * 5 ^ (- e)) e
    end.

(** ToBoolean on a number: false for the zeros and [NaN]. *)
Definition number_truthy (x : number) : bool :=
  match x with
  | NaN | NegZero => false
  | Inf _ => true
  | Int z => negb (z =? 0)
  | Dec m _ => negb (m =? 0)
  end.

Definition decimal_of_N (n : N) : string := NilZero.string_of_uint (N.to_uint n).

Fixpoint zeros (n : nat) : string :=
  match n with O => EmptyString | S k => String "0"%char (zeros k) end.

Fixpoint take_str (n : nat) (s : string) : string :=
  match n, s with
  | S k, String c r => String c (take_str k r)
  | _, _ => EmptyString
  end.

Fixpoint drop_str (n : nat) (s : string) : string :=
  match n, s with
  | S k, String _ r => drop_str k r
  | _, _ => s
  end.

(** The digits of [s] without the zeros at their end. *)
Fixpoint strip_trailing_zeros (s : string) : string :=
  match s with
  | EmptyString => EmptyString
  | String c r =>
      let r' := strip_trailing_zeros r in
      if Ascii.eqb c "0"%char && is_empty r' then EmptyString else String c r'
  end.

(** Number::toString for the positive value [0.s * 10^n], [s] its
    significant digits. *)
Definition digits_to_string (s : string) (n : Z) : string :=
  let k := Z.of_nat (String.length s) in
  if (k <=? n) && (n <=? 21) then s +:+ zeros (Z.to_nat (n - k))
  else if (0 <? n) && (n <=? 21) then
    take_str (Z.to_nat n) s +:+ "." +:+ drop_str (Z.to_nat n) s
  else if (-6 <? n) && (n <=? 0) then "0." +:+ zeros (Z.to_nat (- n)) +:+ s
  else
    let e := n - 1 in
    let mant :=
      match s with
      | String c EmptyString => s
      | String c r => String c ("." +:+ r)
      | EmptyString => s
      end in
    mant +:+ "e" +:+ (if e <? 0 then "-" else "+") +:+ decimal_of_N (Z.abs_N e).

(** The decimal exponent of [p / q]: the [n] with [10^(n-1) <= p/q < 10^n]. *)
Fixpoint adjust_exponent (fuel : nat) (p q n : Z) : Z :=
  match fuel with
  | O => n
  | S f =>
      let '(a, b) := scale10 p q (- n) in
      if b <=? a then adjust_exponent f p q (n + 1)
      else
        let '(a, b) := scale10 p q (1 - n) in
        if a <? b then adjust_exponent f p q (n - 1) else n
  end.

Definition decimal_exponent (p q : Z) : Z :=
  adjust_exponent 4 p q ((Z.log2 p - Z.log2 q) * 30103 / 100000 + 1).

(** The shortest decimal that reads back as the double [M * 2^e], and among
    the decimals of that length the one nearest to it (the even one when
    two are as near): its digits [s], tried with [k] digits and more, and
    the position [n] of the decimal point, the value being [0.s * 10^n]. *)
Fixpoint shortest_digits (fuel : nat) (M e : Z) (p q n0 k : Z) : Z * Z :=
  let '(num, den) := scale10 p q (k - n0) in
  let lo := num / den in
  let r := num mod den in
  let reads (s : Z) : bool :=
    let '(a, b) := scale10 s 1 (n0 - k) in
    match round_ratio a b with
    | Some (M', e') => (M' =? M) && (e' =? e)
    | None => false
    end in
  let pick (s : Z) := (s, n0 - k) in
  match fuel with
  | O => pick lo
  | S f =>
      if r =? 0 then pick lo
      else
        match reads lo, reads (lo + 1) with
        | true, true =>
            if 2 * r <? den then pick lo
            else if den <? 2 * r then pick (lo + 1)
            else if Z.even lo then pick lo else pick (lo + 1)
        | true, false => pick lo
        | false, true => pick (lo + 1)
        | false, false => shortest_digits f M e p q n0 (k + 1)
        end
  end.

(** Number::toString of the positive value [p / q]. *)
Definition positive_to_string (p q : Z) : string :=
  match round_ratio p q with
  | None => "Infinity"
  | Some (M, e) =>
      let '(a, b) := if 0 <=? e then (M * 2 ^ e, 1) else (M, 2 ^ (- e)) in
      let n0 := decimal_exponent a b in
      let '(s, x) := shortest_digits 17 M e a b n0 1 in
      let ds := decimal_of_N (Z.to_N s) in
      digits_to_string (strip_trailing_zeros ds) (Z.of_nat (String.length ds) + x)
  end.

Definition number_to_string (x : number) : string :=
  match x with
  | NaN => "NaN"
  | Inf neg => if neg then "-Infinity" else "Infinity"
  | NegZero => "0"
  | Int z =>
      if z =? 0 then "0"
      else (if z <? 0 then "-" else "") +:+ positive_to_string (Z.abs z) 1
  | Dec m d =>
      (if m <? 0 then "-" else "") +:+ positive_to_string (Z.abs m) (10 ^ Z.pos d)
  end.

(** The value of a run of decimal digits. *)
Fixpoint digits_value (acc : N) (s : string) : N :=
  match s with
  | EmptyString => acc
  | String c r => digits_value (acc * 10 + digit_value c)%N r
  end.

(** [parseInt(s, 10)]: leading white space, an optional sign, then the longest
    run of digits; [NaN] when that run is empty, and else the Number value of
    the integer read. (Beyond twenty significant digits the standard lets an
    engine read the further digits as zeros; the engines round the integer
    itself, as is done here.) *)
Definition parseInt (s : string) : number :=
  let s1 := trimStart s in
  let '(neg, s2) :=
    match s1 with
    | String "-"%char r => (true, r)
    | String "+"%char r => (false, r)
    | _ => (false, s1)
    end in
  let '(ds, _) := span is_digit s2 in
  if is_empty ds then NaN
  else
    Number_of_decimal neg (Z.of_N (digits_value 0 ds)) 0.

(** ** Objects *)

(** An array index: the canonical decimal text of an integer below 2^32 - 1.
    Such keys are enumerated first, in ascending order. *)
Definition array_index (k : string) : option N :=
  match k with
  | EmptyString => None
  | String c r =>
      let '(ds, rest) := span is_digit k in
      if is_empty rest && (is_empty r || negb (Ascii.eqb c "0"%char))
         && (String.length k <=? 10)%nat
      then
        let v := digits_value 0 k in
        if (v <=? 4294967294)%N then Some v else None
      else None
  end.

Section Objects.
Context {A : Type}.

(** An own property, [None] when there is none. *)
Fixpoint obj_get (k : string) (o : list (string * A)) : option A :=
  match o with
  | [] => None
  | (k', v) :: r => if string_eqb k k' then Some v else obj_get k r
  end.

Definition obj_has (k : string) (o : list (string * A)) : bool :=
  match obj_get k o with Some _ => true | None => false end.

Fixpoint obj_replace (k : string) (v : A) (o : list (string * A)) : list (string * A) :=
  match o with
  | [] => []
  | (k', v') :: r =>
      if string_eqb k k' then (k', v) :: r else (k', v') :: obj_replace k v r
  end.

(** A new index key goes before the first key that is no index or a larger one. *)
Fixpoint obj_insert_index (i : N) (k : string) (v : A) (o : list (string * A))
  : list (string * A) :=
  match o with
  | [] => [(k, v)]
  | (k', v') :: r =>
      match array_index k' with
      | Some j =>
          if (j <? i)%N then (k', v') :: obj_insert_index i k v r
          else (k, v) :: o
      | None => (k, v) :: o
      end
  end.

(** Defining the own property [k]: an existing one keeps its place, a new
    one is enumerated after the existing ones of its kind. *)
Definition obj_set (k : string) (v : A) (o : list (string * A)) : list (string * A) :=
  if obj_has k o then obj_replace k v o
  else
    match array_index k with
    | Some i => obj_insert_index i k v o
    | None => o ++ [(k, v)]
    end.
End Objects.

(** ** JSON values *)

#[warnings="-register-all"]
Inductive json : Type :=
  | JNull
  | JBool (b : bool)
  | JNum (n : number)
  | JStr (s : string)
  | JArr (l : list json)
  | JObj (o : list (string * json)).

(** A plain object, as the list of its own properties. *)
Abbreviation object := (list (string * json)).

(** ToBoolean. *)
Definition truthy (v : json) : bool :=
  match v with
  | JNull => false
  | JBool b => b
  | JNum n => number_truthy n
  | JStr s => negb (is_empty s)
  | JArr _ | JObj _ => true
  end.

(** The test [if (x)] on a property that may be absent. *)
Definition truthy_opt (v : option json) : bool :=
  match v with Some x => truthy x | None => false end.

(** ToString; [None] is the TypeError of an object whose own [toString]
    property hides the inherited method. An array is joined with commas,
    [null] elements as the empty text. *)
Fixpoint ToString (v : json) : option string :=
  match v with
  | JNull => Some "null"
  | JBool b => Some (if b then "true" else "false")
  | JNum n => Some (number_to_string n)
  | JStr s => Some s
  | JArr l =>
      (fix join (xs : list json) : option string :=
         match xs with
         | [] => Some ""
         | x :: rest =>
             match (match x with JNull => Some "" | _ => ToString x end) with
             | None => None
             | Some s =>
                 match rest with
                 | [] => Some s
                 | _ :: _ =>
                     match join rest with
                     | None => None
                     | Some t => Some (s +:+ "," +:+ t)
                     end
                 end
             end
         end) l
  | JObj o => if obj_has "toString" o then None else Some "[object Object]"
  end.

(** Reading the property [k] of a value that is not [null]: only a plain
    object has own properties under the names the resolver reads. *)
Definition get_prop (v : json) (k : string) : option json :=
  match v with
  | JObj o => obj_get k o
  | _ => None
  end.

(** The own enumerable properties that the spread [{ ...v }] copies. *)
Fixpoint index_entries {A : Type} (i : nat) (l : list A) : list (string * A) :=
  match l with
  | [] => []
  | x :: r => (decimal_of_N (N.of_nat i), x) :: index_entries (S i) r
  end.

Fixpoint chars (s : string) : list json :=
  match s with
  | EmptyString => []
  | String c r => JStr (String c EmptyString) :: chars r
  end.

Definition spread (v : json) : object :=
  match v with
  | JObj o => o
  | JArr l => index_entries 0 l
  | JStr s => index_entries 0 (chars s)
  | JNull | JBool _ | JNum _ => []
  end.

(** ** JSON.stringify *)

Definition hex_digit (n : N) : ascii :=
  ascii_of_N (if (n <? 10)%N then 48 + n else 87 + n).

Definition quote_char (c : ascii) : string :=
  if Ascii.eqb c dquote then String backslash (String dquote EmptyString)
  else if Ascii.eqb c backslash then String backslash (String backslash EmptyString)
  else if (code c =? 8)%N then String backslash "b"
  else if (code c =? 9)%N then String backslash "t"
  else if (code c =? 10)%N then String backslash "n"
  else if (code c =? 12)%N then String backslash "f"
  else if (code c =? 13)%N then String backslash "r"
  else if (code c <? 32)%N then
    String backslash ("u00" +:+
      String (hex_digit (code c / 16)) (String (hex_digit (code c mod 16)) EmptyString))
  else String c EmptyString.

Fixpoint quote_body (s : string) : string :=
  match s with
  | EmptyString => EmptyString
  | String c r => quote_char c +:+ quote_body r
  end.

(** QuoteJSONString. *)
Definition quote (s : string) : string :=
  String dquote (quote_body s +:+ String dquote EmptyString).

Fixpoint join_with (sep : string) (l : list string) : string :=
  match l with
  | [] => EmptyString
  | [x] => x
  | x :: r => x +:+ sep +:+ join_with sep r
  end.

Fixpoint JSON_stringify (v : json) : string :=
  match v with
  | JNull => "null"
  | JBool b => if b then "true" else "false"
  | JNum NaN | JNum (Inf _) => "null"
  | JNum n => number_to_string n
  | JStr s => quote s
  | JArr l => "[" +:+ join_with "," (map JSON_stringify l) +:+ "]"
  | JObj o =>
      "{" +:+
      join_with ","
        ((fix props (o : object) : list string :=
            match o with
            | [] => []
            | (k, x) :: r => (quote k +:+ ":" +:+ JSON_stringify x) :: props r
            end) o)
      +:+ "}"
  end.

(** ** JSON.parse *)

(** JSON white space: TAB, LF, CR, SP. *)
Definition is_json_ws (c : ascii) : bool :=
  (code c =? 9)%N || (code c =? 10)%N || (code c =? 13)%N || (code c =? 32)%N.

Fixpoint skip_ws (s : string) : string :=
  match s with
  | EmptyString => EmptyString
  | String c r => if is_json_ws c then skip_ws r else s
  end.

Definition hex_value (c : ascii) : option N :=
  if is_digit c then Some (code c - 48)%N
  else if in_range 97 102 c then Some (code c - 87)%N
  else if in_range 65 70 c then Some (code c - 55)%N
  else None.

Definition hex4 (a b c d : ascii) : option N :=
  match hex_value a, hex_value b, hex_value c, hex_value d with
  | Some x, Some y, Some z, Some w => Some (((x * 16 + y) * 16 + z) * 16 + w)%N
  | _, _, _, _ => None
  end.

(** The characters of a string literal after its opening quote, up to the
    closing one. An escape above [ÿ] names a code unit outside the
    alphabet of the model: the literal has no value in the model, and
    [None] is returned for it as for a literal that is malformed. *)
Fixpoint parse_string_body (s : string) : option (string * string) :=
  match s with
  | EmptyString => None
  | String c r =>
      if Ascii.eqb c dquote then Some (EmptyString, r)
      else if Ascii.eqb c backslash then
        match r with
        | String e r1 =>
            let simple (x : ascii) :=
              match parse_string_body r1 with
              | Some (t, rest) => Some (String x t, rest)
              | None => None
              end in
            if Ascii.eqb e dquote then simple dquote
            else if Ascii.eqb e backslash then simple backslash
            else if Ascii.eqb e "/"%char then simple "/"%char
            else if Ascii.eqb e "b"%char then simple "008"%char
            else if Ascii.eqb e "f"%char then simple "012"%char
            else if Ascii.eqb e "n"%char then simple "010"%char
            else if Ascii.eqb e "r"%char then simple "013"%char
            else if Ascii.eqb e "t"%char then simple "009"%char
            else if Ascii.eqb e "u"%char then
              match r1 with
              | String h1 (String h2 (String h3 (String h4 r2))) =>
                  match hex4 h1 h2 h3 h4 with
                  | Some n =>
                      if (n <? 256)%N then
                        match parse_string_body r2 with
                        | Some (t, rest) => Some (String (ascii_of_N n) t, rest)
                        | None => None
                        end
                      else None
                  | None => None
                  end
              | _ => None
              end
            else None
        | EmptyString => None
        end
      else if (code c <? 32)%N then None
      else
        match parse_string_body r with
        | Some (t, rest) => Some (String c t, rest)
        | None => None
        end
  end.

(** The text after the character [x], when [s] starts with it. *)
Definition strip_char (x : ascii) (s : string) : option string :=
  match s with
  | String c r => if Ascii.eqb c x then Some r else None
  | EmptyString => None
  end.

(** A number literal: an optional minus, then 0 or a run of digits that does
    not start with 0, then an optional fraction (a point and digits) and an
    optional exponent (e or E, an optional sign, digits). *)
Definition parse_number (s : string) : option (number * string) :=
  let '(neg, s1) :=
    match strip_char "-" s with Some r => (true, r) | None => (false, s) end in
  let int_part :=
    match strip_char "0" s1 with
    | Some r => Some ("0", r)
    | None => let '(ds, r) := span is_digit s1 in
              if is_empty ds then None else Some (ds, r)
    end in
  match int_part with
  | None => None
  | Some (ip, s2) =>
      let frac_part :=
        match strip_char "." s2 with
        | Some r =>
            let '(ds, r') := span is_digit r in
            if is_empty ds then None else Some (ds, r')
        | None => Some (EmptyString, s2)
        end in
      match frac_part with
      | None => None
      | Some (fp, s3) =>
          let exp_part :=
            match s3 with
            | String c r =>
                if Ascii.eqb c "e"%char || Ascii.eqb c "E"%char then
                  let '(eneg, r1) :=
                    match strip_char "-" r with
                    | Some r' => (true, r')
                    | None =>
                        match strip_char "+" r with
                        | Some r' => (false, r')
                        | None => (false, r)
                        end
                    end in
                  let '(ds, r2) := span is_digit r1 in
                  if is_empty ds then None
                  else
                    let e := Z.of_N (digits_value 0 ds) in
                    Some (if eneg then - e else e, r2)
                else Some (0, s3)
            | EmptyString => Some (0, s3)
            end in
          match exp_part with
          | None => None
          | Some (e, s4) =>
              let m := Z.of_N (digits_value 0 (ip +:+ fp)) in
              Some (Number_of_decimal neg m (e - Z.of_nat (String.length fp)), s4)
          end
      end
  end.

Definition expect (lit : string) (v : json) (s : string) : option (json * string) :=
  if string_eqb (take_str (String.length lit) s) lit
  then Some (v, drop_str (String.length lit) s) else None.

Section Parser.
(** The parser of a value, one nesting level down. *)
Variable parse_inner : string -> option (json * string).

(** The elements of an array after its first one: a comma and a value,
    repeated, then the closing bracket. *)
Fixpoint parse_elements (n : nat) (acc : list json) (s : string)
  : option (json * string) :=
  match n with
  | O => None
  | S n' =>
      match strip_char "]" (skip_ws s) with
      | Some r => Some (JArr (rev acc), r)
      | None =>
          match strip_char "," (skip_ws s) with
          | Some r =>
              match parse_inner r with
              | Some (v, r') => parse_elements n' (v :: acc) r'
              | None => None
              end
          | None => None
          end
      end
  end.

(** One member, a string, a colon and a value, put into [acc]. *)
Definition parse_member (acc : object) (s : string) : option (object * string) :=
  match strip_char dquote (skip_ws s) with
  | Some r =>
      match parse_string_body r with
      | Some (k, r1) =>
          match strip_char ":" (skip_ws r1) with
          | Some r2 =>
              match parse_inner r2 with
              | Some (v, r3) => Some (obj_set k v acc, r3)
              | None => None
              end
          | None => None
          end
      | None => None
      end
  | None => None
  end.

(** The members of an object after its first one: a comma and a member,
    repeated, then the closing brace. *)
Fixpoint parse_members (n : nat) (acc : object) (s : string)
  : option (json * string) :=
  match n with
  | O => None
  | S n' =>
      match strip_char "}" (skip_ws s) with
      | Some r => Some (JObj acc, r)
      | None =>
          match strip_char "," (skip_ws s) with
          | Some r =>
              match parse_member acc r with
              | Some (acc', r') => parse_members n' acc' r'
              | None => None
              end
          | None => None
          end
      end
  end.
End Parser.

(** A value with the white space before it; [fuel] bounds the nesting. *)
Fixpoint parse_value (fuel : nat) (s : string) : option (json * string) :=
  match fuel with
  | O => None
  | S f =>
      match skip_ws s with
      | EmptyString => None
      | String c r =>
          if Ascii.eqb c "{"%char then
            match strip_char "}" (skip_ws r) with
            | Some r' => Some (JObj [], r')
            | None =>
                match parse_member (parse_value f) [] r with
                | Some (acc, r') =>
                    parse_members (parse_value f) (String.length r') acc r'
                | None => None
                end
            end
          else if Ascii.eqb c "["%char then
            match strip_char "]" (skip_ws r) with
            | Some r' => Some (JArr [], r')
            | None =>
                match parse_value f r with
                | Some (v, r') =>
                    parse_elements (parse_value f) (String.length r') [v] r'
                | None => None
                end
            end
          else if Ascii.eqb c dquote then
            match parse_string_body r with
            | Some (t, r') => Some (JStr t, r')
            | None => None
            end
          else if Ascii.eqb c "t"%char then expect "true" (JBool true) (String c r)
          else if Ascii.eqb c "f"%char then expect "false" (JBool false) (String c r)
          else if Ascii.eqb c "n"%char then expect "null" JNull (String c r)
          else
            match parse_number (String c r) with
            | Some (n, r') => Some (JNum n, r')
            | None => None
            end
      end
  end.

(** Every escape of the text that names a code unit by hexadecimal digits
    names one of the alphabet: its first two digits are zeros. A backslash
    is read together with the character after it, as the grammar of JSON
    reads it inside a string literal (outside of one it is a syntax error). *)
Fixpoint escapes_in_alphabet (s : string) : bool :=
  match s with
  | EmptyString => true
  | String c r =>
      if Ascii.eqb c backslash then
        match r with
        | String e r1 =>
            if Ascii.eqb e "u"%char then
              match r1 with
              | String h1 (String h2 r2) =>
                  Ascii.eqb h1 "0"%char && Ascii.eqb h2 "0"%char && escapes_in_alphabet r2
              | _ => true
              end
            else escapes_in_alphabet r1
        | EmptyString => true
        end
      else escapes_in_alphabet r
  end.

(** [JSON.parse]. For a text whose escapes are in the alphabet, [None] is
    its SyntaxError; a text with an escape outside the alphabet has no value
    in the model, and [None] is returned for it too. A text of length [n]
    nests fewer than [n] levels, so this fuel is enough ([JSON_parse_fuel]). *)
Definition JSON_parse (s : string) : option json :=
  match parse_value (S (String.length s)) s with
  | Some (v, r) => if is_empty (skip_ws r) then Some v else None
  | None => None
  end.

Local Close Scope Z_scope.

(** * The block rewriter (remark-mdx-mermaid.ts) *)

(** ** parseCodeBlockAttributes *)

(** [attributes: Record<string, string | null>], [rest: string]. *)
Record CodeBlockAttributes : Type := {
  cb_attributes : list (string * option string);
  cb_rest : string;
}.

(** The bag while it is filled: its own properties, and whether its prototype
    has been set to [null]. *)
Definition bag : Type := bool * list (string * option string).

(** [attributes[name] = v]. Under the name [__proto__] the assignment runs the
    setter inherited from [Object.prototype], which makes no own property: it
    sets the prototype when [v] is [null] and does nothing otherwise. Once
    the prototype is [null] the setter is gone and the name is an ordinary one. *)
Definition bag_set (name : string) (v : option string) (b : bag) : bag :=
  let '(proto_null, props) := b in
  if string_eqb name "__proto__" && negb proto_null then
    match v with
    | None => (true, props)
    | Some _ => (proto_null, props)
    end
  else (proto_null, obj_set name v props).

(** The optional group of the expression, an equals sign and a value between
    two double quotes or two apostrophes, tried at [s]: the captured value and
    the number of characters the group takes. *)
Definition match_value (s : string) : option (string * nat) :=
  match s with
  | String "="%char (String q r) =>
      if Ascii.eqb q dquote || Ascii.eqb q squote then
        let '(v, r') := span (fun c => negb (Ascii.eqb c q)) r in
        match r' with
        | String _ _ => Some (v, 3 + String.length v)%nat
        | EmptyString => None
        end
      else None
  | _ => None
  end.

(** The expression without its look-behind, tried at [s]: the name, the value
    ([value1 ?? value2 ?? null]) and the length of the match. [\w+] is greedy
    and what follows it is optional, so the longest name is the one taken. *)
Definition match_here (s : string) : option (string * option string * nat) :=
  let '(w, r) := span is_word s in
  if is_empty w then None
  else
    match match_value r with
    | Some (v, n) => Some (w, Some v, String.length w + n)%nat
    | None => Some (w, None, String.length w)
    end.

(** [str.replaceAll(regex, callback)] with the callback that records the
    attribute and returns the empty text. [prev_space] says that the
    look-behind (start of the text, or white space before) holds here, [skip]
    counts the characters of the current match still to drop. The result is
    the bag and the text left. *)
Fixpoint replaceAll (prev_space : bool) (skip : nat) (s : string) (b : bag)
  : bag * string :=
  match s with
  | EmptyString => (b, EmptyString)
  | String c r =>
      match skip with
      | S k => replaceAll (is_space c) k r b
      | O =>
          match (if prev_space then match_here s else None) with
          | Some (name, v, len) =>
              replaceAll (is_space c) (pred len) r (bag_set name v b)
          | None =>
              let '(b', out) := replaceAll (is_space c) 0 r b in
              (b', String c out)
          end
      end
  end.

Definition parseCodeBlockAttributes (meta : string) : CodeBlockAttributes :=
  let '(b, str) := replaceAll true 0 meta (false, []) in
  {| cb_rest := trim str; cb_attributes := snd b |}.

(** ** The document tree *)

Record MdxJsxAttribute : Type := {
  attr_type : string;
  attr_name : string;
  attr_value : string;
}.

(** A node of the tree with the properties the plugin reads or writes;
    [others] holds every other own property (position, data, ...). *)
#[warnings="-register-all"]
Inductive Node : Type :=
  MkNode {
    type : string;
    lang : option string;
    meta : option string;
    value : option string;
    name : option string;
    attributes : option (list MdxJsxAttribute);
    children : option (list Node);
    others : object;
  }.

(** ** toMDX *)

(** What [toMDX] returns. *)
Record MdxJsxFlowElement : Type := {
  el_type : string;
  el_name : string;
  el_attributes : list MdxJsxAttribute;
  el_children : list Node;
}.

(** The bag as the value [JSON.stringify] prints. *)
Definition bag_json (config : list (string * option string)) : json :=
  JObj (map (fun '(k, v) =>
               (k, match v with Some s => JStr s | None => JNull end)) config).

Definition toMDX (code : string) (config : list (string * option string))
  : MdxJsxFlowElement :=
  let attributes :=
    [ {| attr_type := "mdxJsxAttribute"; attr_name := "chart"; attr_value := trim code |} ] in
  let attributes :=
    if (0 <? length config)%nat then
      attributes ++
      [ {| attr_type := "mdxJsxAttribute"; attr_name := "config";
           attr_value := JSON_stringify (bag_json config) |} ]
    else attributes in
  {| el_type := "mdxJsxFlowElement"; el_name := "Mermaid"; el_attributes := attributes;
     el_children := [] |}.

(** ** The rewrite *)

(** [Object.assign(node, element)]: the four properties of the element are
    written, the others stay. *)
Definition Object_assign (node : Node) (el : MdxJsxFlowElement) : Node :=
  {| type := el_type el;
     lang := lang node;
     meta := meta node;
     value := value node;
     name := Some (el_name el);
     attributes := Some (el_attributes el);
     children := Some (el_children el);
     others := others node |}.

(** The visitor of [remarkMdxMermaid]: [None] when it returns at its guard,
    the node after the assignment otherwise. *)
Definition visitor (target : string) (node : Node) : option Node :=
  match value node with
  | Some v =>
      if negb (bool_decide (lang node = Some target)) || is_empty v then None
      else
        let attrs := cb_attributes (parseCodeBlockAttributes (default "" (meta node))) in
        Some (Object_assign node (toMDX v attrs))
  | None => None
  end.

(** [visit(tree, 'code', visitor)]: every node of type [code] is handed to
    the visitor, parents before children; the walk then descends into the
    children the node has after the visit, which for a rewritten node is the
    empty list. *)
Fixpoint visit (target : string) (node : Node) : Node :=
  match node with
  | MkNode ty la me va na attrs ch ot =>
      let descend :=
        MkNode ty la me va na attrs
          (match ch with
           | Some l => Some (map (visit target) l)
           | None => None
           end) ot in
      if string_eqb ty "code" then
        match visitor target node with
        | Some node' => node'
        | None => descend
        end
      else descend
  end.

Record RemarkMdxMermaidOptions : Type := { opt_lang : option string }.

(** The transformer; the tree it returns is the tree it was given after the
    mutation in place. *)
Definition remarkMdxMermaid (options : RemarkMdxMermaidOptions) (tree : Node) : Node :=
  let lang := default "mermaid" (opt_lang options) in
  visit lang tree.

(** * The diagram renderer (ui/mermaid.tsx) *)

(** ** buildMermaidConfig *)

(** How a call ends: with a value, or with a TypeError thrown to the caller. *)
Inductive completion (A : Type) : Type :=
  | Normal (a : A)
  | Throw.
Arguments Normal {A} a.
Arguments Throw {A}.

(** Sequencing: what follows a call that threw is not run. *)
Global Instance completion_bind : MBind completion := fun A B k c =>
  match c with
  | Normal a => k a
  | Throw => Throw
  end.

(** [parseInt(v, 10)] on a property value: the value is turned into a string first. *)
Definition to_int (v : json) : completion json :=
  match ToString v with
  | Some s => Normal (JNum (parseInt s))
  | None => Throw
  end.

(** [v === 'true']. *)
Definition to_bool (v : json) : completion json :=
  Normal (JBool (match v with JStr s => string_eqb s "true" | _ => false end)).

Definition as_is (v : json) : completion json := Normal v.

(** [if (parsed.k) options.k = conv(parsed.k)]. *)
Definition assign_if (parsed : json) (k : string) (conv : json -> completion json)
    (options : object) : completion object :=
  match get_prop parsed k with
  | Some v =>
      if truthy v then (x ← conv v; Normal (obj_set k x options))
      else Normal options
  | None => Normal options
  end.

(** [if (Object.keys(options).length > 0) config.k = options]. *)
Definition attach (k : string) (options : object) (config : object) : object :=
  if (0 <? length options)%nat then obj_set k (JObj options) config else config.

(** [themeOverride ? { theme: themeOverride } : {}]. *)
Definition theme_only (themeOverride : option string) : object :=
  match themeOverride with
  | Some t => if is_empty t then [] else [("theme", JStr t)]
  | None => []
  end.

(** [if (themeOverride) result.theme = themeOverride]. *)
Definition override_theme (themeOverride : option string) (result : object) : object :=
  match themeOverride with
  | Some t => if is_empty t then result else obj_set "theme" (JStr t) result
  | None => result
  end.

(** The [try] block of the nested branch: the configuration that
    [parsed.config] holds, [None] when reading it throws (the [catch] then
    falls through to the flat attributes). *)
Definition nested_config (parsed : json) : option json :=
  match get_prop parsed "config" with
  | Some c =>
      if truthy c then
        match ToString c with
        | Some s => JSON_parse s
        | None => None
        end
      else None
  | None => None
  end.

(** The flat attributes, from the line [const config: MermaidConfig = {}] on. *)
Definition flat_config (parsed : json) (themeOverride : option string)
  : completion object :=
  let config : object := [] in
  let config :=
    match get_prop parsed "theme" with
    | Some t => if truthy t then obj_set "theme" t config
                else override_theme themeOverride config
    | None => override_theme themeOverride config
    end in
  packetOptions ← assign_if parsed "rowHeight" to_int [];
  packetOptions ← assign_if parsed "bitsPerRow" to_int packetOptions;
  packetOptions ← assign_if parsed "showBits" to_bool packetOptions;
  let config := attach "packet" packetOptions config in
  flowchartOptions ← assign_if parsed "nodeSpacing" to_int [];
  flowchartOptions ← assign_if parsed "rankSpacing" to_int flowchartOptions;
  flowchartOptions ← assign_if parsed "curve" as_is flowchartOptions;
  let config := attach "flowchart" flowchartOptions config in
  sequenceOptions ← assign_if parsed "mirrorActors" to_bool [];
  sequenceOptions ← assign_if parsed "messageAlign" as_is sequenceOptions;
  let config := attach "sequence" sequenceOptions config in
  Normal config.

Definition buildMermaidConfig (configStr : option string) (themeOverride : option string)
  : completion object :=
  match configStr with
  | None => Normal (theme_only themeOverride)
  | Some cs =>
      if is_empty cs then Normal (theme_only themeOverride)
      else
        match JSON_parse cs with
        | None => Normal (theme_only themeOverride)
        | Some JNull => Throw (* reading [parsed.config] of [null] *)
        | Some parsed =>
            match nested_config parsed with
            | Some nestedConfig =>
                let result := spread nestedConfig in
                let result :=
                  match get_prop parsed "theme" with
                  | Some t => if truthy t then obj_set "theme" t result else result
                  | None => result
                  end in
                Normal (override_theme themeOverride result)
            | None => flat_config parsed themeOverride
            end
        end
  end.

(** ** The cache *)

(** A promise is known by its identity. *)
Definition Promise : Type := nat.

(** [const cache = new Map<string, Promise<unknown>>()], with the state [W] of
    whatever the deferred computations act on. *)
Record Store (W : Type) : Type := {
  cache : gmap string Promise;
  world : W;
}.
Arguments cache {W} _.
Arguments world {W} _.

(** [cachePromise(key, setPromise)]. A promise is an object, so the test
    [if (cached)] asks whether the key is in the map. *)
Definition cachePromise {W : Type} (key : string) (setPromise : W -> Promise * W)
    (st : Store W) : Promise * Store W :=
  match cache st !! key with
  | Some cached => (cached, st)
  | None =>
      let '(promise, w) := setPromise (world st) in
      (promise, {| cache := <[key := promise]> (cache st); world := w |})
  end.

(** A sequence of calls of [cachePromise], and the promises they return. *)
Fixpoint run {W : Type} (calls : list (string * (W -> Promise * W))) (st : Store W)
  : list Promise * Store W :=
  match calls with
  | [] => ([], st)
  | (key, setPromise) :: rest =>
      let '(p, st1) := cachePromise key setPromise st in
      let '(ps, st2) := run rest st1 in
      (p :: ps, st2)
  end.

(** [setPromise] made to write its key into a log each time it is invoked. *)
Definition logged {W : Type} (call : string * (W -> Promise * W))
  : string * (W * list string -> Promise * (W * list string)) :=
  (call.1, fun '(w, log) => let '(p, w') := call.2 w in (p, (w', call.1 :: log))).

(** ** The engine and the framework *)

(** What a promise of the cache is fulfilled with: the engine module, or the
    result of a render. *)
Inductive Value : Type :=
  | MermaidModule
  | RenderResult (svg : string) (bindFunctions : bool).

Inductive Settlement : Type :=
  | Fulfilled (v : Value)
  | Rejected.

(** The collaborators of the component: the promises handed out so far, the
    calls made to the engine, and the promises that have settled. *)
Record World : Type := {
  next_promise : Promise;
  imports : nat;
  initialized : nat;
  rendered : list (Promise * string * string);
  settled : gmap Promise Settlement;
}.

(** [import('mermaid')]. *)
Definition import_mermaid (w : World) : Promise * World :=
  (next_promise w,
   {| next_promise := S (next_promise w); imports := S (imports w);
      initialized := initialized w; rendered := rendered w; settled := settled w |}).

(** [mermaid.initialize({...})]. *)
Definition mermaid_initialize (w : World) : World :=
  {| next_promise := next_promise w; imports := imports w;
     initialized := S (initialized w); rendered := rendered w; settled := settled w |}.

(** [mermaid.render(id, text)]. *)
Definition mermaid_render (id text : string) (w : World) : Promise * World :=
  (next_promise w,
   {| next_promise := S (next_promise w); imports := imports w;
      initialized := initialized w;
      rendered := rendered w ++ [(next_promise w, id, text)];
      settled := settled w |}).

(** [use(promise)]: the settlement, [None] while the promise is pending. *)
Definition use (p : Promise) (w : World) : option Settlement := settled w !! p.

(** ** MermaidContent *)

Record MermaidContentProps : Type := {
  chart : string;
  themeOverride : option string;
  themeCSS : string;
  config : option string;
  exportable : bool;
}.

(** How one run of the component body ends. *)
Inductive Rendering : Type :=
  | Suspends (p : Promise)
  | Fails
  | Element (svg : string) (bindFunctions : bool) (toolbar : bool).

(** [themeOverride ?? (systemTheme === 'dark' ? 'dark' : 'default')]. *)
Definition resolvedTheme (themeOverride systemTheme : option string) : string :=
  match themeOverride with
  | Some t => t
  | None => if bool_decide (systemTheme = Some "dark") then "dark" else "default"
  end.

(** [diagramConfig] after [diagramConfig.themeCSS = themeCSS]. *)
Definition diagramConfig (props : MermaidContentProps) (systemTheme : option string)
  : completion object :=
  cfg ← buildMermaidConfig (config props)
           (Some (resolvedTheme (themeOverride props) systemTheme));
  Normal (obj_set "themeCSS" (JStr (themeCSS props)) cfg).

(** [initDirective + chart.replaceAll('\\n', '\n')]. *)
Definition fullChart (cfg : object) (chart : string) : string :=
  let initDirective :=
    "%%{init: " +:+ JSON_stringify (JObj cfg) +:+ "}%%" +:+ String newline EmptyString in
  initDirective +:+ unescape_newlines chart.

(** The key of the render: [`${chart}-${resolvedTheme}-${configStr ?? ''}`]. *)
Definition cacheKey (chart theme : string) (configStr : option string) : string :=
  chart +:+ "-" +:+ theme +:+ "-" +:+ default "" configStr.

(** One run of the body of [MermaidContent]. *)
Definition MermaidContent (props : MermaidContentProps) (systemTheme : option string)
    (id : string) (st : Store World) : Rendering * Store World :=
  let theme := resolvedTheme (themeOverride props) systemTheme in
  let '(engine, st) := cachePromise "mermaid" import_mermaid st in
  match use engine (world st) with
  | None => (Suspends engine, st)
  | Some Rejected => (Fails, st)
  | Some (Fulfilled (RenderResult _ _)) => (Fails, st)
  | Some (Fulfilled MermaidModule) =>
      let st := {| cache := cache st; world := mermaid_initialize (world st) |} in
      match diagramConfig props systemTheme with
      | Throw => (Fails, st)
      | Normal cfg =>
          let '(p, st) :=
            cachePromise (cacheKey (chart props) theme (config props))
                         (mermaid_render id (fullChart cfg (chart props))) st in
          match use p (world st) with
          | None => (Suspends p, st)
          | Some Rejected => (Fails, st)
          | Some (Fulfilled MermaidModule) => (Fails, st)
          | Some (Fulfilled (RenderResult svg bindFunctions)) =>
              (Element svg bindFunctions (exportable props), st)
          end
      end
  end.

(** ** Mermaid *)

Record MermaidProps : Type := {
  prop_chart : string;
  prop_theme : option string;
  prop_themeCSS : option string;
  prop_config : option string;
  prop_exportable : option string;
}.

(** The wrapper: nothing before the mount, then [MermaidContent] with the
    default [themeCSS] filled in. *)
Definition Mermaid (p : MermaidProps) (mounted : bool) : option MermaidContentProps :=
  if mounted then
    Some {| chart := prop_chart p;
            themeOverride := prop_theme p;
            themeCSS := default "margin: 1.5rem auto 0;" (prop_themeCSS p);
            config := prop_config p;
            exportable := bool_decide (prop_exportable p = Some "true") |}
  else None.

(** * The vocabulary of the specification *)

(** A flat attribute that is present: it holds a text that is not empty. *)
Definition present (b : list (string * option string)) (k : string) : option string :=
  match obj_get k b with
  | Some (Some s) => if is_empty s then None else Some s
  | _ => None
  end.

(** The recognized fields of a family that are present, each converted. *)
Definition collect (b : list (string * option string))
    (fields : list (string * (string -> json))) : object :=
  omap (fun '(k, conv) =>
          match present b k with Some s => Some (k, conv s) | None => None end) fields.

(** The group of a family: attached when it has a field, left out otherwise. *)
Definition family (group : string) (b : list (string * option string))
    (fields : list (string * (string -> json))) : object :=
  match collect b fields with
  | [] => []
  | o => [(group, JObj o)]
  end.

(** A base-10 integer, a boolean that is true for the text [true] only, and a
    text passed through. *)
Definition integer (s : string) : json := JNum (parseInt s).
Definition boolean (s : string) : json := JBool (string_eqb s "true").
Definition passed (s : string) : json := JStr s.

Definition packet_fields : list (string * (string -> json)) :=
  [("rowHeight", integer); ("bitsPerRow", integer); ("showBits", boolean)].
Definition flowchart_fields : list (string * (string -> json)) :=
  [("nodeSpacing", integer); ("rankSpacing", integer); ("curve", passed)].
Definition sequence_fields : list (string * (string -> json)) :=
  [("mirrorActors", boolean); ("messageAlign", passed)].

(** The configuration the specification gives for a flat attribute bag. *)
Definition flat_spec (b : list (string * option string)) (themeOverride : option string)
  : object :=
  (match present b "theme" with
   | Some s => [("theme", JStr s)]
   | None => theme_only themeOverride
   end)
  ++ family "packet" b packet_fields
  ++ family "flowchart" b flowchart_fields
  ++ family "sequence" b sequence_fields.

(** A theme that was given: a text that is not empty. *)
Definition given (t : option string) : option json :=
  match t with
  | Some s => if is_empty s then None else Some (JStr s)
  | None => None
  end.

(** The property [k] of [v] when it passes the test [if (v.k)]. *)
Definition truthy_prop (v : json) (k : string) : option json :=
  match get_prop v k with
  | Some x => if truthy x then Some x else None
  | None => None
  end.

(** The text the resolver hands to the second [JSON.parse]: the property
    [config] of the parsed value when it passes the test, as a string. *)
Definition config_text (parsed : json) : option string :=
  match get_prop parsed "config" with
  | Some c => if truthy c then ToString c else None
  | None => None
  end.

(** The nested text of a parsed value, when there is one, has its escapes
    in the alphabet. *)
Definition nested_in_alphabet (parsed : json) : Prop :=
  ∀ t, config_text parsed = Some t → escapes_in_alphabet t = true.

(** A serialized config within the model: the escapes of the text, and of
    the nested text it may hold, are in the alphabet. *)
Definition within_alphabet (cs : string) : Prop :=
  escapes_in_alphabet cs = true
  ∧ ∀ parsed, JSON_parse cs = Some parsed → nested_in_alphabet parsed.

(** The first of two sources that has a value. *)
Definition first_of (a b : option json) : option json :=
  match a with Some x => Some x | None => b end.

(** Every character of [s] satisfies [p]. *)
Fixpoint forall_chars (p : ascii -> bool) (s : string) : bool :=
  match s with
  | EmptyString => true
  | String c r => p c && forall_chars p r
  end.

Definition all_space (s : string) : bool := forall_chars is_space s.

Definition no_space (s : string) : bool := forall_chars (fun c => negb (is_space c)) s.

Definition starts_with_space (s : string) : bool :=
  match s with
  | String c _ => is_space c
  | EmptyString => false
  end.

Fixpoint ends_with_space (s : string) : bool :=
  match s with
  | EmptyString => false
  | String c EmptyString => is_space c
  | String _ r => ends_with_space r
  end.

(** Reading an attribute of a rewritten node back by its name. *)
Definition read_attribute (n : string) (node : Node) : option string :=
  match attributes node with
  | Some l => attr_value <$> find (fun a => string_eqb (attr_name a) n) l
  | None => None
  end.

(** The node a path of child indices leads to. *)
Fixpoint node_at (path : list nat) (node : Node) : option Node :=
  match path with
  | [] => Some node
  | i :: rest =>
      match children node with
      | Some l =>
          match l !! i with
          | Some child => node_at rest child
          | None => None
          end
      | None => None
      end
  end.

(** A tree of the document format: a [code] node is a literal, it has no
    [children] property. *)
Fixpoint code_leaves (node : Node) : bool :=
  match node with
  | MkNode ty _ _ _ _ _ ch _ =>
      match ch with
      | None => true
      | Some l => negb (string_eqb ty "code") && forallb code_leaves l
      end
  end.

(** The length of a text, and two properties of the readers of the JSON
    parser that its fuel is measured against. *)
Abbreviation len := String.length.

(** A reader that leaves less than it was given. *)
Definition consumes (pv : string → option (json * string)) : Prop :=
  ∀ s v r, pv s = Some (v, r) → len r < len s.

(** Two readers that agree on every text of length at most [n]. *)
Definition agree (n : nat) (pv1 pv2 : string → option (json * string)) : Prop :=
  ∀ s, len s ≤ n → pv1 s = pv2 s.

(** * Sample inputs *)

Definition code_node (l m : option string) (v : string) : Node :=
  {| type := "code"; lang := l; meta := m; value := Some v; name := None;
     attributes := None; children := None; others := [] |}.

Definition parent_node (ty : string) (l : list Node) : Node :=
  {| type := ty; lang := None; meta := None; value := None; name := None;
     attributes := None; children := Some l; others := [] |}.

(** A document with a block of another language, an empty diagram block, and
    inside a quotation a diagram block with two attributes. *)
Definition sample_tree : Node :=
  parent_node "root"
    [ code_node (Some "js") None "let x = 1;";
      code_node (Some "mermaid") None "";
      parent_node "blockquote"
        [ code_node (Some "mermaid") (Some (dq "theme='dark' rowHeight='50'"))
            (String newline ("  graph TD; A-->B " +:+ String newline EmptyString)) ] ].

Definition default_options : RemarkMdxMermaidOptions := {| opt_lang := None |}.


Definition sample_props (css : string) (cfg : option string) : MermaidContentProps :=
  {| chart := "graph TD; A-->B"; themeOverride := None; themeCSS := css;
     config := cfg; exportable := false |}.


(** The log of a store is in order: no key twice, and the logged keys are
    the keys of the map. *)
Definition log_ok {W : Type} (st : Store (W * list string)) : Prop :=
  NoDup (world st).2 ∧ ∀ k, k ∈ (world st).2 ↔ is_Some (cache st !! k).

(** The theme prop [dark] beside the flat attribute that sets the theme [forest]. *)
Definition forest_props : MermaidContentProps :=
  {| chart := "graph TD; A-->B";
     themeOverride := Some "dark";
     themeCSS := "margin: 1.5rem auto 0;";
     config := Some (dq "{'theme':'forest'}");
     exportable := false |}.

(** Three calls of [cachePromise], two of them under one key; the state of
    the computations is a counter that hands out the promises. *)
Definition sample_calls : list (string * (nat -> Promise * nat)) :=
  [ ("mermaid", fun w => (w, S w));
    ("graph TD-dark-", fun w => (w, S w));
    ("mermaid", fun w => (w, S w)) ].

(** * More vocabulary: well-formed meta strings *)

(** A token of a meta string: a bare name, or a name with a value between
    two quotes [q]. *)
Inductive token : Type :=
  | Flag (n : string)
  | Attr (n : string) (q : ascii) (v : string).

Definition token_name (t : token) : string :=
  match t with Flag n => n | Attr n _ _ => n end.

Definition token_value (t : token) : option string :=
  match t with Flag _ => None | Attr _ _ v => Some v end.

Definition token_text (t : token) : string :=
  match t with
  | Flag n => n
  | Attr n q v => n +:+ String "=" (String q (v +:+ String q EmptyString))
  end.

(** A name is a run of word characters that is not empty; a value holds no
    quote of the kind around it. *)
Definition wf_token (t : token) : Prop :=
  token_name t ≠ "" ∧ forall_chars is_word (token_name t) = true
  ∧ match t with
    | Flag _ => True
    | Attr _ q v =>
        (q = dquote ∨ q = squote)
        ∧ forall_chars (fun c => negb (Ascii.eqb c q)) v = true
    end.

(** Tokens, each with the white space after it. *)
Fixpoint meta_text (items : list (token * string)) : string :=
  match items with
  | [] => EmptyString
  | (t, sep) :: rest => token_text t +:+ sep +:+ meta_text rest
  end.

(** The white space between two tokens is not empty. *)
Fixpoint wf_items (items : list (token * string)) : Prop :=
  match items with
  | [] => True
  | (t, sep) :: rest =>
      wf_token t ∧ all_space sep = true
      ∧ (rest = [] ∨ sep ≠ "") ∧ wf_items rest
  end.


(** The assignments [attributes[name] = value] of the tokens, in their order. *)
Definition assign_all (toks : list token) (b : bag) : bag :=
  fold_left (fun b t => bag_set (token_name t) (token_value t) b) toks b.

(** The value of the last token under the name [n]. *)
Fixpoint last_value (n : string) (toks : list token) : option (option string) :=
  match toks with
  | [] => None
  | t :: rest =>
      match last_value n rest with
      | Some v => Some v
      | None => if string_eqb (token_name t) n then Some (token_value t) else None
      end
  end.

(** Whether the look-behind holds after the text [u]. *)
Fixpoint after (prev : bool) (u : string) : bool :=
  match u with
  | EmptyString => prev
  | String c r => after (is_space c) r
  end.

(** The value of an attribute holds no double quote, or no apostrophe. *)
Definition one_quote_kind (v : option string) : Prop :=
  match v with
  | Some s => forall_chars (fun c => negb (Ascii.eqb c dquote)) s = true
              ∨ forall_chars (fun c => negb (Ascii.eqb c squote)) s = true
  | None => True
  end.

(** * More vocabulary: the order of own properties *)

(** The name [a] may be enumerated before the name [b]: array indices come
    first, in ascending order. *)
Definition key_before (a b : string) : Prop :=
  match array_index a, array_index b with
  | Some i, Some j => (i < j)%N
  | Some _, None => True
  | None, Some _ => False
  | None, None => True
  end.

(** Names in the order of enumeration, none of them twice. *)
Fixpoint keys_ordered (ks : list string) : Prop :=
  match ks with
  | [] => True
  | k :: r => Forall (key_before k) r ∧ (k ∉ r) ∧ keys_ordered r
  end.

(** Making an object from a list of properties, one assignment after the other. *)
Definition rebuild {A : Type} (l : list (string * A)) (acc : list (string * A))
  : list (string * A) :=
  fold_left (fun a kv => obj_set (fst kv) (snd kv) a) l acc.

(** * More vocabulary: the text of an object *)

(** The text [JSON.stringify] writes for one property, and for the
    properties after the first one with the closing brace. *)
Definition member_text (kv : string * json) : string :=
  quote (fst kv) +:+ ":" +:+ JSON_stringify (snd kv).

Fixpoint members_tail (o : object) : string :=
  match o with
  | [] => "}"
  | kv :: r => "," +:+ member_text kv +:+ members_tail r
  end.

(** A text or [null]: the values an attribute bag holds. *)
Definition leaf (v : json) : Prop :=
  match v with
  | JStr _ | JNull => True
  | _ => False
  end.

(** * The first version of the rewriter *)

(** [toMDX] and the visitor before the meta string was read: the element has
    the [chart] attribute only. *)
Definition toMDX_v1 (code : string) : MdxJsxFlowElement :=
  {| el_type := "mdxJsxFlowElement"; el_name := "Mermaid";
     el_attributes :=
       [ {| attr_type := "mdxJsxAttribute"; attr_name := "chart"; attr_value := trim code |} ];
     el_children := [] |}.

Definition visitor_v1 (target : string) (node : Node) : option Node :=
  match value node with
  | Some v =>
      if negb (bool_decide (lang node = Some target)) || is_empty v then None
      else Some (Object_assign node (toMDX_v1 v))
  | None => None
  end.

Fixpoint visit_v1 (target : string) (node : Node) : Node :=
  match node with
  | MkNode ty la me va na attrs ch ot =>
      let descend :=
        MkNode ty la me va na attrs
          (match ch with
           | Some l => Some (map (visit_v1 target) l)
           | None => None
           end) ot in
      if string_eqb ty "code" then
        match visitor_v1 target node with
        | Some node' => node'
        | None => descend
        end
      else descend
  end.

Definition remarkMdxMermaid_v1 (options : RemarkMdxMermaidOptions) (tree : Node) : Node :=
  let lang := default "mermaid" (opt_lang options) in
  visit_v1 lang tree.

(** A tree in which no meta string of a [code] node holds an attribute. *)
Fixpoint no_attributes (node : Node) : bool :=
  match node with
  | MkNode ty _ me _ _ _ ch _ =>
      (negb (string_eqb ty "code")
       || match cb_attributes (parseCodeBlockAttributes (default "" me)) with
          | [] => true
          | _ :: _ => false
          end)
      && match ch with
         | Some l => forallb no_attributes l
         | None => true
         end
  end.

(** * More vocabulary: the resolver *)

(** The fields the resolver reads with [parseInt]. *)
Definition int_fields : list string :=
  ["rowHeight"; "bitsPerRow"; "nodeSpacing"; "rankSpacing"].

(** A field read with [parseInt] holds a value that passes the test and
    cannot be turned into a text. *)
Definition unprintable_field (parsed : json) : Prop :=
  ∃ k v, k ∈ int_fields ∧ get_prop parsed k = Some v
         ∧ truthy v = true ∧ ToString v = None.


(** * The component over time *)

(** The page when the module is loaded: an empty cache, no promise made. *)
Definition init_store : Store World :=
  {| cache := ∅;
     world := {| next_promise := 0; imports := 0; initialized := 0; rendered := [];
                 settled := ∅ |} |}.

(** What happens on the page: a run of the body of [MermaidContent] for some
    request, or the settlement of a promise. *)
Inductive event : Type :=
  | Run (props : MermaidContentProps) (systemTheme : option string) (id : string)
  | Settle (p : Promise) (s : Settlement).

(** A promise that has been made and is pending settles; it settles once. *)
Definition settle (p : Promise) (s : Settlement) (w : World) : World :=
  if (p <? next_promise w)%nat then
    match settled w !! p with
    | Some _ => w
    | None =>
        {| next_promise := next_promise w; imports := imports w;
           initialized := initialized w; rendered := rendered w;
           settled := <[p := s]> (settled w) |}
    end
  else w.

Definition do_event (e : event) (st : Store World) : Store World :=
  match e with
  | Run props systemTheme id => (MermaidContent props systemTheme id st).2
  | Settle p s => {| cache := cache st; world := settle p s (world st) |}
  end.

Definition play (events : list event) (st : Store World) : Store World :=
  fold_left (fun st e => do_event e st) events st.

(** A later state of the page: every cache entry and every settlement of the
    earlier state is still there. *)
Definition extends (st st' : Store World) : Prop :=
  cache st ⊆ cache st' ∧ settled (world st) ⊆ settled (world st').

(** The engine has been imported once when its key is cached and never
    otherwise, and it has rendered once for every other key of the cache. *)
Definition calls_match_cache (st : Store World) : Prop :=
  imports (world st) = match cache st !! "mermaid" with Some _ => 1 | None => 0 end
  ∧ length (rendered (world st)) = size (delete "mermaid" (cache st)).

(** * Properties *)

(** ** The model on the examples of the specification *)

(** A meta string with a quoted value, a bare flag and a value with a space. *)
Example parse_three_attributes :
  parseCodeBlockAttributes (dq "a='1' b c='x y'")
  = {| cb_attributes := [("a", Some "1"); ("b", None); ("c", Some "x y")];
       cb_rest := "" |}.
Proof. reflexivity. Qed.

(** The last occurrence of a name wins and keeps the place of the first; keys
    that are array indices come first. *)
Example parse_duplicate_and_index_keys :
  cb_attributes (parseCodeBlockAttributes (dq "b='1' 7 a b='2'"))
  = [("7", None); ("b", Some "2"); ("a", None)].
Proof. reflexivity. Qed.

(** The text the rewriter stores and the text the renderer reads back. *)
Example stringify_then_parse :
  JSON_stringify (bag_json [("theme", Some "dark"); ("rowHeight", Some "50"); ("wide", None)])
  = dq "{'theme':'dark','rowHeight':'50','wide':null}"
  ∧ JSON_parse (dq "{'theme':'dark','rowHeight':'50','wide':null}")
    = Some (bag_json [("theme", Some "dark"); ("rowHeight", Some "50"); ("wide", None)]).
Proof. split; reflexivity. Qed.

(** Only an override, no serialized config. *)
Example override_only :
  buildMermaidConfig None (Some "dark") = Normal [("theme", JStr "dark")].
Proof. reflexivity. Qed.

(** A field that is no number: [parseInt] gives [NaN], which goes to the engine. *)
Example not_a_number :
  buildMermaidConfig (Some (dq "{'rowHeight':'abc'}")) None
  = Normal [("packet", JObj [("rowHeight", JNum NaN)])].
Proof. reflexivity. Qed.

(** The source handed to the engine: the directive, then the chart with its
    escaped line breaks made real. *)
Example composed_source :
  fullChart [("theme", JStr "dark"); ("themeCSS", JStr "margin: 0;")] "graph TD\n A-->B"
  = dq "%%{init: {'theme':'dark','themeCSS':'margin: 0;'}}%%"
    +:+ String newline ("graph TD" +:+ String newline " A-->B").
Proof. reflexivity. Qed.

(** The first run on a fresh store starts the load of the engine and suspends. *)
Example first_run_suspends :
  MermaidContent (sample_props "margin: 0;" None) (Some "dark") "r1"
    {| cache := ∅;
       world := {| next_promise := 0; imports := 0; initialized := 0; rendered := [];
                   settled := ∅ |} |}
  = (Suspends 0,
     {| cache := {[ "mermaid" := 0 ]};
        world := {| next_promise := 1; imports := 1; initialized := 0; rendered := [];
                    settled := ∅ |} |}).
Proof. reflexivity. Qed.

(** ** Objects *)

Section ObjectFacts.
Context {A : Type}.
Implicit Types (o : list (string * A)) (k : string) (v : A).

Lemma string_eqb_refl k : string_eqb k k = true.
Proof. unfold string_eqb. by rewrite bool_decide_eq_true_2. Qed.

Lemma string_eqb_ne k k' : k ≠ k' → string_eqb k k' = false.
Proof. intros. unfold string_eqb. by rewrite bool_decide_eq_false_2. Qed.

Lemma obj_has_get k o : obj_has k o = false → obj_get k o = None.
Proof. unfold obj_has. by destruct (obj_get k o). Qed.

Lemma obj_get_replace_same k v o :
  obj_has k o = true → obj_get k (obj_replace k v o) = Some v.
Proof.
  unfold obj_has. induction o as [|[k' v'] o IH]; simpl; [done|].
  destruct (decide (k = k')) as [->|Hne].
  - rewrite string_eqb_refl. simpl. by rewrite string_eqb_refl.
  - rewrite (string_eqb_ne _ _ Hne). simpl. rewrite (string_eqb_ne _ _ Hne). apply IH.
Qed.

Lemma obj_get_replace_other k k' v o :
  k ≠ k' → obj_get k' (obj_replace k v o) = obj_get k' o.
Proof.
  intros Hne. induction o as [|[k1 v1] o IH]; simpl; [done|].
  destruct (decide (k = k1)) as [->|Hne1].
  - rewrite string_eqb_refl. simpl. rewrite string_eqb_ne; [done|congruence].
  - rewrite (string_eqb_ne _ _ Hne1). simpl. by rewrite IH.
Qed.

Lemma obj_get_insert_index_same k i v o :
  obj_get k o = None → obj_get k (obj_insert_index i k v o) = Some v.
Proof.
  induction o as [|[k1 v1] o IH]; simpl.
  - by rewrite string_eqb_refl.
  - destruct (decide (k = k1)) as [->|Hne].
    { by rewrite string_eqb_refl. }
    rewrite (string_eqb_ne _ _ Hne). intros H.
    destruct (array_index k1) as [j|]; [destruct (j <? i)%N|]; simpl;
      rewrite ?string_eqb_refl, ?(string_eqb_ne _ _ Hne); auto.
Qed.

Lemma obj_get_insert_index_other k k' i v o :
  k ≠ k' → obj_get k' (obj_insert_index i k v o) = obj_get k' o.
Proof.
  intros Hne. assert (string_eqb k' k = false) as E by (apply string_eqb_ne; congruence).
  induction o as [|[k1 v1] o IH]; simpl.
  - by rewrite E.
  - destruct (array_index k1) as [j|]; [destruct (j <? i)%N|]; simpl;
      rewrite ?E, ?IH; done.
Qed.

Lemma obj_get_app k o o' :
  obj_get k (o ++ o') = match obj_get k o with Some v => Some v | None => obj_get k o' end.
Proof.
  induction o as [|[k1 v1] o IH]; simpl; [done|]. by destruct (string_eqb k k1).
Qed.

(** Reading a property back after it was set. *)
Lemma obj_get_set_same k v o : obj_get k (obj_set k v o) = Some v.
Proof.
  unfold obj_set. destruct (obj_has k o) eqn:H.
  - by apply obj_get_replace_same.
  - destruct (array_index k).
    + apply obj_get_insert_index_same. by apply obj_has_get.
    + rewrite obj_get_app, (obj_has_get _ _ H). simpl. by rewrite string_eqb_refl.
Qed.

(** Setting a property leaves the others as they are. *)
Lemma obj_get_set_other k k' v o : k ≠ k' → obj_get k' (obj_set k v o) = obj_get k' o.
Proof.
  intros Hne. unfold obj_set. destruct (obj_has k o).
  - by apply obj_get_replace_other.
  - destruct (array_index k).
    + by apply obj_get_insert_index_other.
    + rewrite obj_get_app. destruct (obj_get k' o); [done|].
      simpl. rewrite string_eqb_ne; [done|congruence].
Qed.
End ObjectFacts.

(** ** The JSON reader and its fuel *)

Lemma skip_ws_length s : len (skip_ws s) ≤ len s.
Proof.
  induction s as [|c s IH]; simpl; [done|]. destruct (is_json_ws c); simpl; lia.
Qed.

Lemma skip_ws_cons s c r : skip_ws s = String c r → len r < len s.
Proof. intros H. pose proof (skip_ws_length s) as Hl. rewrite H in Hl. simpl in Hl. lia. Qed.

Lemma span_length p s a b : span p s = (a, b) → len a + len b = len s.
Proof.
  revert a b. induction s as [|c s IH]; intros a b; simpl.
  - by intros [= <- <-].
  - destruct (p c).
    + destruct (span p s) as [a' b'] eqn:E. intros [= <- <-]. simpl.
      specialize (IH _ _ eq_refl). lia.
    + intros [= <- <-]. simpl. lia.
Qed.

Lemma is_empty_length s : is_empty s = false → 0 < len s.
Proof. destruct s; simpl; [done|lia]. Qed.

Lemma take_drop_length n s : len (take_str n s) + len (drop_str n s) = len s.
Proof.
  revert s. induction n as [|n IH]; intros [|c s]; simpl; try done.
  specialize (IH s). lia.
Qed.

Lemma expect_length lit v s v' r :
  0 < len lit → expect lit v s = Some (v', r) → len r < len s.
Proof.
  unfold expect, string_eqb. intros Hl H. case_bool_decide as E; [|done].
  injection H as _ <-. pose proof (take_drop_length (len lit) s). rewrite E in *. lia.
Qed.

Lemma parse_string_body_length s : ∀ t r,
  parse_string_body s = Some (t, r) → len r < len s.
Proof.
  induction s as [s IH] using (induction_ltof1 _ String.length). unfold ltof in IH.
  intros t r H. destruct s as [|c s]; [done|]. simpl in H.
  repeat (case_match; simplify_eq; simpl in *; try lia);
    match goal with
    | E : parse_string_body ?x = Some (_, ?y) |- _ =>
        apply IH in E; simpl in *; lia
    end.
Qed.

Lemma strip_char_length x s r : strip_char x s = Some r → len s = S (len r).
Proof.
  destruct s as [|c s]; simpl; [done|]. destruct (Ascii.eqb c x); [|done].
  by intros [= ->].
Qed.

Ltac lengths :=
  repeat match goal with
         | E : span _ _ = (_, _) |- _ => apply span_length in E
         | E : is_empty _ = false |- _ => apply is_empty_length in E
         | E : strip_char _ _ = Some _ |- _ => apply strip_char_length in E
         | E : skip_ws _ = String _ _ |- _ => apply skip_ws_cons in E
         | E : parse_string_body _ = Some _ |- _ => apply parse_string_body_length in E
         | E : expect _ _ _ = Some _ |- _ => apply expect_length in E; [|simpl; lia]
         end.

Lemma parse_number_length s n r : parse_number s = Some (n, r) → len r < len s.
Proof.
  unfold parse_number. intros H.
  destruct (strip_char "-" s) as [s1|] eqn:E1;
    (destruct (strip_char "0" _) as [s2|] eqn:E2;
     [|destruct (span is_digit _) as [ds s2] eqn:E2';
       destruct (is_empty ds) eqn:E2''; [done|]]);
    (destruct (strip_char "." s2) as [s3|] eqn:E3;
     [destruct (span is_digit s3) as [fs s3'] eqn:E3';
      destruct (is_empty fs) eqn:E3''; [done|]|]);
    repeat (case_match; simplify_eq); lengths; simpl in *; lia.
Qed.

Lemma parse_member_length pv acc s acc' r :
  consumes pv → parse_member pv acc s = Some (acc', r) → len r < len s.
Proof.
  intros Hpv H. unfold parse_member in H.
  repeat (case_match; simplify_eq).
  pose proof (skip_ws_length s). 
  match goal with E : pv _ = Some _ |- _ => apply Hpv in E end.
  match goal with E : strip_char ":" (skip_ws ?x) = _ |- _ => pose proof (skip_ws_length x) end.
  lengths. lia.
Qed.

Lemma parse_members_length pv n : ∀ acc s v r,
  consumes pv → parse_members pv n acc s = Some (v, r) → len r < len s.
Proof.
  induction n as [|n IH]; intros acc s v r Hpv H; simpl in H; [done|].
  pose proof (skip_ws_length s).
  repeat (case_match; simplify_eq).
  - lengths. lia.
  - match goal with E : parse_member _ _ _ = Some _ |- _ =>
      apply parse_member_length in E; [|done] end.
    apply IH in H; [|done]. lengths. lia.
Qed.

Lemma parse_elements_length pv n : ∀ acc s v r,
  consumes pv → parse_elements pv n acc s = Some (v, r) → len r < len s.
Proof.
  induction n as [|n IH]; intros acc s v r Hpv H; simpl in H; [done|].
  pose proof (skip_ws_length s).
  repeat (case_match; simplify_eq).
  - lengths. lia.
  - match goal with E : pv _ = Some _ |- _ => apply Hpv in E end.
    apply IH in H; [|done]. lengths. lia.
Qed.

Lemma parse_value_consumes fuel : consumes (parse_value fuel).
Proof.
  induction fuel as [|f IH]; intros s v r H; simpl in H; [done|].
  destruct (skip_ws s) as [|c s'] eqn:Hs; [done|]. apply skip_ws_cons in Hs.
  pose proof (skip_ws_length s').
  repeat (case_match; simplify_eq);
    repeat match goal with
           | E : parse_member _ _ _ = Some _ |- _ => apply parse_member_length in E; [|done]
           | E : parse_members _ _ _ _ = Some _ |- _ => apply parse_members_length in E; [|done]
           | E : parse_elements _ _ _ _ = Some _ |- _ => apply parse_elements_length in E; [|done]
           | E : parse_value _ _ = Some _ |- _ => apply IH in E
           | E : parse_number _ = Some _ |- _ => apply parse_number_length in E
           end; lengths; simpl in *; lia.
Qed.

Lemma parse_member_agree n pv1 pv2 acc s :
  agree n pv1 pv2 → len s ≤ S n → parse_member pv1 acc s = parse_member pv2 acc s.
Proof.
  intros Hag Hs. unfold parse_member.
  destruct (strip_char dquote (skip_ws s)) as [r|] eqn:E1; [|done].
  destruct (parse_string_body r) as [[k r1]|] eqn:E2; [|done].
  destruct (strip_char ":" (skip_ws r1)) as [r2|] eqn:E3; [|done].
  rewrite (Hag r2); [done|].
  pose proof (skip_ws_length s). pose proof (skip_ws_length r1). lengths. lia.
Qed.

Lemma parse_members_agree n pv1 pv2 k : ∀ acc s,
  agree n pv1 pv2 → consumes pv1 → len s ≤ S n →
  parse_members pv1 k acc s = parse_members pv2 k acc s.
Proof.
  induction k as [|k IH]; intros acc s Hag Hc Hs; simpl; [done|].
  destruct (strip_char "}" (skip_ws s)); [done|].
  destruct (strip_char "," (skip_ws s)) as [r|] eqn:E; [|done].
  pose proof (skip_ws_length s). lengths.
  rewrite <- (parse_member_agree n pv1 pv2) by (done || lia).
  destruct (parse_member pv1 acc r) as [[acc' r']|] eqn:E'; [|done].
  apply parse_member_length in E'; [|done]. apply IH; [done..|lia].
Qed.

Lemma parse_elements_agree n pv1 pv2 k : ∀ acc s,
  agree n pv1 pv2 → consumes pv1 → len s ≤ S n →
  parse_elements pv1 k acc s = parse_elements pv2 k acc s.
Proof.
  induction k as [|k IH]; intros acc s Hag Hc Hs; simpl; [done|].
  destruct (strip_char "]" (skip_ws s)); [done|].
  destruct (strip_char "," (skip_ws s)) as [r|] eqn:E; [|done].
  pose proof (skip_ws_length s). lengths.
  rewrite <- (Hag r) by lia.
  destruct (pv1 r) as [[v r']|] eqn:E'; [|done].
  apply Hc in E'. apply IH; [done..|lia].
Qed.

(** Past the length of the text, more fuel for the nesting changes nothing. *)
Lemma parse_value_fuel s : ∀ f1 f2,
  len s < f1 → len s < f2 → parse_value f1 s = parse_value f2 s.
Proof.
  induction s as [s IH] using (induction_ltof1 _ String.length). unfold ltof in IH.
  intros [|g1] [|g2] H1 H2; try lia. simpl.
  destruct (skip_ws s) as [|c r] eqn:Hs; [done|]. apply skip_ws_cons in Hs.
  assert (agree (len r) (parse_value g1) (parse_value g2)) as Hag.
  { intros s' Hs'. apply IH; lia. }
  destruct (Ascii.eqb c "{").
  { destruct (strip_char "}" (skip_ws r)); [done|].
    rewrite (parse_member_agree _ _ _ _ _ Hag) by lia.
    destruct (parse_member (parse_value g2) [] r) as [[acc r']|] eqn:E; [|done].
    apply parse_member_length in E; [|apply parse_value_consumes].
    apply (parse_members_agree (len r)); [done|apply parse_value_consumes|lia]. }
  destruct (Ascii.eqb c "[").
  { destruct (strip_char "]" (skip_ws r)); [done|].
    rewrite (Hag r) by lia.
    destruct (parse_value g2 r) as [[v r']|] eqn:E; [|done].
    apply parse_value_consumes in E.
    apply (parse_elements_agree (len r)); [done|apply parse_value_consumes|lia]. }
  done.
Qed.

Lemma parse_members_done pv k acc : parse_members pv k acc "" = None.
Proof. by destruct k. Qed.

Lemma parse_elements_done pv k acc : parse_elements pv k acc "" = None.
Proof. by destruct k. Qed.

Lemma length_zero s : len s ≤ 0 → s = "".
Proof. destruct s; simpl; [done|lia]. Qed.

(** Past the length of the text, more rounds for the members of an object,
    or the elements of an array, change nothing. *)
Lemma parse_members_rounds pv k1 : ∀ k2 acc s,
  consumes pv → len s ≤ k1 → len s ≤ k2 →
  parse_members pv k1 acc s = parse_members pv k2 acc s.
Proof.
  induction k1 as [|k1 IH]; intros k2 acc s Hc H1 H2.
  { apply length_zero in H1 as ->. by rewrite !parse_members_done. }
  destruct k2 as [|k2].
  { apply length_zero in H2 as ->. by rewrite !parse_members_done. }
  simpl. destruct (strip_char "}" (skip_ws s)); [done|].
  destruct (strip_char "," (skip_ws s)) as [r|] eqn:E; [|done].
  pose proof (skip_ws_length s). lengths.
  destruct (parse_member pv acc r) as [[acc' r']|] eqn:E'; [|done].
  apply parse_member_length in E'; [|done]. apply IH; [done|lia..].
Qed.

Lemma parse_elements_rounds pv k1 : ∀ k2 acc s,
  consumes pv → len s ≤ k1 → len s ≤ k2 →
  parse_elements pv k1 acc s = parse_elements pv k2 acc s.
Proof.
  induction k1 as [|k1 IH]; intros k2 acc s Hc H1 H2.
  { apply length_zero in H1 as ->. by rewrite !parse_elements_done. }
  destruct k2 as [|k2].
  { apply length_zero in H2 as ->. by rewrite !parse_elements_done. }
  simpl. destruct (strip_char "]" (skip_ws s)); [done|].
  destruct (strip_char "," (skip_ws s)) as [r|] eqn:E; [|done].
  pose proof (skip_ws_length s). lengths.
  destruct (pv r) as [[v r']|] eqn:E'; [|done].
  apply Hc in E'. apply IH; [done|lia..].
Qed.

(** The fuel of [JSON_parse] is enough: with any larger fuel the reader gives
    the same answer, so [None] is a syntax error and never a lack of fuel. *)
Lemma JSON_parse_fuel s fuel :
  len s < fuel →
  match parse_value fuel s with
  | Some (v, r) => if is_empty (skip_ws r) then Some v else None
  | None => None
  end = JSON_parse s.
Proof.
  intros H. unfold JSON_parse. by rewrite (parse_value_fuel s fuel (S (len s))) by lia.
Qed.

(** ** The config resolver *)

Lemma JSON_parse_nonempty cs v : JSON_parse cs = Some v → is_empty cs = false.
Proof. destruct cs; [discriminate|done]. Qed.

Lemma get_prop_bag b k :
  get_prop (bag_json b) k
  = match obj_get k b with
    | Some (Some s) => Some (JStr s)
    | Some None => Some JNull
    | None => None
    end.
Proof.
  unfold bag_json. simpl. induction b as [|[k' [s|]] b IH]; simpl; [done| |];
    destruct (string_eqb k k'); done.
Qed.

Lemma assign_if_bag b k conv f options :
  (∀ s, conv (JStr s) = Normal (f s)) →
  assign_if (bag_json b) k conv options
  = Normal (match present b k with
            | Some s => obj_set k (f s) options
            | None => options
            end).
Proof.
  intros Hconv. unfold assign_if, present. rewrite get_prop_bag.
  destruct (obj_get k b) as [[s|]|]; simpl; [|done..].
  destruct (is_empty s); simpl; [done|]. by rewrite Hconv.
Qed.

Lemma override_theme_empty ov : override_theme ov [] = theme_only ov.
Proof. destruct ov as [t|]; simpl; [|done]. by destruct (is_empty t). Qed.

(** The first step of the flat branch: the theme. *)
Lemma flat_theme_bag b ov :
  match get_prop (bag_json b) "theme" with
  | Some t => if truthy t then obj_set "theme" t [] else override_theme ov []
  | None => override_theme ov []
  end
  = match present b "theme" with
    | Some s => [("theme", JStr s)]
    | None => theme_only ov
    end.
Proof.
  rewrite get_prop_bag, override_theme_empty. unfold present.
  destruct (obj_get "theme" b) as [[s|]|]; simpl; try done.
  by destruct (is_empty s).
Qed.

Lemma theme_shape b ov :
  let th := match present b "theme" with
            | Some s => [("theme", JStr s)]
            | None => theme_only ov
            end in
  th = [] ∨ ∃ x, th = [("theme", x)].
Proof.
  simpl. destruct (present b "theme"); [eauto|].
  destruct ov as [t|]; simpl; [|eauto]. destruct (is_empty t); eauto.
Qed.

(** The flat branch computes the configuration of the specification. *)
Lemma flat_config_bag b ov : flat_config (bag_json b) ov = Normal (flat_spec b ov).
Proof.
  unfold flat_config. rewrite flat_theme_bag.
  rewrite (assign_if_bag b "rowHeight" to_int integer) by done.
  unfold mbind at 1, completion_bind at 1; cbv beta iota.
  rewrite (assign_if_bag b "bitsPerRow" to_int integer) by done.
  unfold mbind at 1, completion_bind at 1; cbv beta iota.
  rewrite (assign_if_bag b "showBits" to_bool boolean) by done.
  unfold mbind at 1, completion_bind at 1; cbv beta iota.
  rewrite (assign_if_bag b "nodeSpacing" to_int integer) by done.
  unfold mbind at 1, completion_bind at 1; cbv beta iota.
  rewrite (assign_if_bag b "rankSpacing" to_int integer) by done.
  unfold mbind at 1, completion_bind at 1; cbv beta iota.
  rewrite (assign_if_bag b "curve" as_is passed) by done.
  unfold mbind at 1, completion_bind at 1; cbv beta iota.
  rewrite (assign_if_bag b "mirrorActors" to_bool boolean) by done.
  unfold mbind at 1, completion_bind at 1; cbv beta iota.
  rewrite (assign_if_bag b "messageAlign" as_is passed) by done.
  unfold mbind at 1, completion_bind at 1; cbv beta iota.
  f_equal. unfold flat_spec, family, collect, packet_fields, flowchart_fields,
    sequence_fields. cbn [omap list_omap].
  destruct (theme_shape b ov) as [-> | [x ->]];
    destruct (present b "rowHeight"), (present b "bitsPerRow"), (present b "showBits");
    destruct (present b "nodeSpacing"), (present b "rankSpacing"), (present b "curve");
    destruct (present b "mirrorActors"), (present b "messageAlign");
    reflexivity.
Qed.

Lemma buildMermaidConfig_parsed cs parsed ov :
  JSON_parse cs = Some parsed → parsed ≠ JNull →
  buildMermaidConfig (Some cs) ov
  = match nested_config parsed with
    | Some nestedConfig =>
        Normal (override_theme ov
                  (match get_prop parsed "theme" with
                   | Some t => if truthy t then obj_set "theme" t (spread nestedConfig)
                               else spread nestedConfig
                   | None => spread nestedConfig
                   end))
    | None => flat_config parsed ov
    end.
Proof.
  intros Hp Hnull. unfold buildMermaidConfig.
  rewrite (JSON_parse_nonempty _ _ Hp), Hp. by destruct parsed.
Qed.

(** C5. Resolving the flat text [{"theme":"dark","rowHeight":"40"}] with no
    override gives [{theme:"dark", packet:{rowHeight:40}}]; and for every flat
    attribute bag handled as flat attributes (it has no [config] attribute
    whose text parses, that text being within the alphabet) the result is
    the configuration of the specification: the theme, then per family
    (packet, flowchart, sequence) the recognized fields that are present,
    converted (integers in base 10 as [parseInt] reads them, booleans true
    for the text "true" only, texts passed through), the group attached only
    when it has a field, and nothing else. *)
Theorem flat_attributes_resolved :
  buildMermaidConfig (Some (dq "{'theme':'dark','rowHeight':'40'}")) None
  = Normal [("theme", JStr "dark"); ("packet", JObj [("rowHeight", JNum (Int 40))])]
  ∧ ∀ cs b ov,
      JSON_parse cs = Some (bag_json b) →
      nested_config (bag_json b) = None →
      nested_in_alphabet (bag_json b) →
      buildMermaidConfig (Some cs) ov = Normal (flat_spec b ov).
Proof.
  split; [by vm_compute|].
  intros cs b ov Hp Hn _.
  rewrite (buildMermaidConfig_parsed _ _ _ Hp) by done.
  rewrite Hn. apply flat_config_bag.
Qed.

Lemma flat_attributes_resolved_witness :
  buildMermaidConfig (Some (dq "{'showBits':'true','curve':'basis','bogus':'1','bitsPerRow':'32'}"))
                     (Some "dark")
  = Normal [("theme", JStr "dark");
            ("packet", JObj [("bitsPerRow", JNum (Int 32)); ("showBits", JBool true)]);
            ("flowchart", JObj [("curve", JStr "basis")])].
Proof.
  apply (proj2 flat_attributes_resolved
           (dq "{'showBits':'true','curve':'basis','bogus':'1','bitsPerRow':'32'}")
           [("showBits", Some "true"); ("curve", Some "basis"); ("bogus", Some "1");
            ("bitsPerRow", Some "32")]
           (Some "dark")); [reflexivity | reflexivity | intros t H; discriminate].
Defined.

(** The theme of a configuration: setting it, and setting anything else. *)
Lemma override_theme_get ov result :
  obj_get "theme" (override_theme ov result) = first_of (given ov) (obj_get "theme" result).
Proof.
  destruct ov as [t|]; simpl; [|done]. destruct (is_empty t); simpl; [done|].
  apply obj_get_set_same.
Qed.

Lemma override_theme_other ov result k :
  k ≠ "theme" → obj_get k (override_theme ov result) = obj_get k result.
Proof.
  intros Hk. destruct ov as [t|]; simpl; [|done]. destruct (is_empty t); [done|].
  by apply obj_get_set_other.
Qed.

(** C6. Resolving [{"config":"{\"theme\":\"forest\"}"}] with the override
    "dark" gives [{theme:"dark"}]; and whenever the parsed text has a [config]
    field whose value parses as JSON, the resolver returns the properties of
    that nested value with only [theme] overwritten: by the override when one
    is given, else by the outer [theme] when it has one, else left as nested. *)
Theorem nested_config_resolved :
  buildMermaidConfig (Some (dq "{'config':'{\'theme\':\'forest\'}'}")) (Some "dark")
  = Normal [("theme", JStr "dark")]
  ∧ ∀ cs parsed c s nested ov,
      JSON_parse cs = Some parsed →
      get_prop parsed "config" = Some c → truthy c = true →
      ToString c = Some s → JSON_parse s = Some nested →
      ∃ result,
        buildMermaidConfig (Some cs) ov = Normal result
        ∧ obj_get "theme" result
          = first_of (given ov)
              (first_of (truthy_prop parsed "theme") (obj_get "theme" (spread nested)))
        ∧ ∀ k, k ≠ "theme" → obj_get k result = obj_get k (spread nested).
Proof.
  split; [by vm_compute|].
  intros cs parsed c s nested ov Hp Hc Ht Hs Hn.
  assert (parsed ≠ JNull) as Hnull by (intros ->; discriminate).
  rewrite (buildMermaidConfig_parsed _ _ _ Hp Hnull).
  unfold nested_config. rewrite Hc, Ht, Hs, Hn.
  eexists. split; [reflexivity|]. split.
  - rewrite override_theme_get. f_equal. unfold truthy_prop.
    destruct (get_prop parsed "theme") as [t|]; [|done].
    destruct (truthy t); [|done]. simpl. apply obj_get_set_same.
  - intros k Hk. rewrite override_theme_other by done.
    destruct (get_prop parsed "theme") as [t|]; [|done].
    destruct (truthy t); [|done]. apply obj_get_set_other. congruence.
Qed.

Lemma nested_config_resolved_witness :
  ∃ result,
    buildMermaidConfig
      (Some (dq "{'config':'{\'theme\':\'forest\',\'look\':\'neo\'}','theme':'neutral','rowHeight':'40'}"))
      None = Normal result
    ∧ obj_get "theme" result = Some (JStr "neutral")
    ∧ ∀ k, k ≠ "theme" →
        obj_get k result = obj_get k [("theme", JStr "forest"); ("look", JStr "neo")].
Proof.
  exact (proj2 nested_config_resolved
           (dq "{'config':'{\'theme\':\'forest\',\'look\':\'neo\'}','theme':'neutral','rowHeight':'40'}")
           (JObj [("config", JStr (dq "{'theme':'forest','look':'neo'}"));
                  ("theme", JStr "neutral"); ("rowHeight", JStr "40")])
           (JStr (dq "{'theme':'forest','look':'neo'}"))
           (dq "{'theme':'forest','look':'neo'}")
           (JObj [("theme", JStr "forest"); ("look", JStr "neo")])
           None eq_refl eq_refl eq_refl eq_refl eq_refl).
Defined.

(** Without a serialized config, or with one that is no JSON text, the
    resolver returns the override alone, or nothing. *)
Lemma absent_or_unparsable_config configStr ov :
  (configStr = None ∨ ∃ cs, configStr = Some cs ∧ JSON_parse cs = None) →
  buildMermaidConfig configStr ov = Normal (theme_only ov).
Proof.
  intros [-> | (cs & -> & Hp)]; [done|].
  unfold buildMermaidConfig. rewrite Hp. by destruct (is_empty cs).
Qed.

(** C7. The resolver does raise: the text [null] is JSON, parses to [null],
    and reading [parsed.config] of it throws a TypeError, whatever the
    override. *)
Theorem null_config_throws :
  ∀ ov, buildMermaidConfig (Some "null") ov = Throw.
Proof. intros ov. reflexivity. Qed.

(** A second way to the same failure: [parseInt] of an object whose own
    [toString] property hides the inherited method. *)
Lemma unprintable_field_throws :
  ∀ ov, buildMermaidConfig (Some (dq "{'rowHeight':{'toString':1}}")) ov = Throw.
Proof. intros ov. by destruct ov as [[|]|]. Qed.

(** ** The theme of the effective configuration *)

Lemma bind_Normal {A B : Type} (c : completion A) (k : A → completion B) r :
  c ≫= k = Normal r → ∃ a, c = Normal a ∧ k a = Normal r.
Proof. destruct c as [a|]; [eauto|discriminate]. Qed.

Lemma bind_ret {A B : Type} (a : A) (k : A → completion B) : Normal a ≫= k = k a.
Proof. reflexivity. Qed.

Lemma attach_other k k' options cfg :
  k ≠ k' → obj_get k' (attach k options cfg) = obj_get k' cfg.
Proof.
  intros Hne. unfold attach. destruct (0 <? length options); [|done].
  by apply obj_get_set_other.
Qed.

(** In the flat branch a theme attribute that passes the test wins, and the
    override serves when there is none. *)
Lemma flat_config_theme parsed ov cfg :
  flat_config parsed ov = Normal cfg →
  obj_get "theme" cfg = first_of (truthy_prop parsed "theme") (given ov).
Proof.
  unfold flat_config. intros H.
  repeat (apply bind_Normal in H; destruct H as (? & _ & H)).
  injection H as <-.
  rewrite !attach_other by done. unfold truthy_prop.
  destruct (get_prop parsed "theme") as [t|]; [destruct (truthy t)|].
  - apply obj_get_set_same.
  - rewrite override_theme_get. by destruct (given ov).
  - rewrite override_theme_get. by destruct (given ov).
Qed.

Lemma diagramConfig_Normal props sys cfg :
  diagramConfig props sys = Normal cfg →
  ∃ c, buildMermaidConfig (config props)
         (Some (resolvedTheme (themeOverride props) sys)) = Normal c
       ∧ obj_get "theme" cfg = obj_get "theme" c.
Proof.
  unfold diagramConfig. intros H. apply bind_Normal in H as (c & Hc & H).
  injection H as <-. exists c. split; [done|]. by apply obj_get_set_other.
Qed.

(** C1, as the code has it. One theme is resolved first: the theme prop when
    it is given, else "dark" or "default" after the ambient color mode. With
    no serialized config, or one that is no JSON text, and with a nested
    config, that resolved theme is the theme of the effective configuration
    (in the nested case before the outer theme attribute, which comes before
    the theme of the nested value). With flat attributes a theme attribute
    that passes the test (a text that is not empty) comes first, before the
    resolved theme, and so before an explicit theme prop. A text that
    [JSON.parse] refuses is taken with its escapes in the alphabet, the
    serialized config and the nested text alike. *)
Theorem theme_precedence :
  ∀ (props : MermaidContentProps) (sys : option string),
    let rt := resolvedTheme (themeOverride props) sys in
    (∀ t, themeOverride props = Some t → rt = t)
    ∧ (themeOverride props = None →
       rt = if bool_decide (sys = Some "dark") then "dark" else "default")
    ∧ ((config props = None
        ∨ ∃ cs, config props = Some cs ∧ JSON_parse cs = None
                ∧ escapes_in_alphabet cs = true) →
       ∃ cfg, diagramConfig props sys = Normal cfg
              ∧ obj_get "theme" cfg = given (Some rt))
    ∧ (∀ cs parsed nested,
         config props = Some cs → JSON_parse cs = Some parsed →
         nested_config parsed = Some nested →
         ∃ cfg, diagramConfig props sys = Normal cfg
                ∧ obj_get "theme" cfg
                  = first_of (given (Some rt))
                      (first_of (truthy_prop parsed "theme")
                                (obj_get "theme" (spread nested))))
    ∧ (∀ cs parsed cfg,
         config props = Some cs → JSON_parse cs = Some parsed →
         nested_config parsed = None → nested_in_alphabet parsed →
         diagramConfig props sys = Normal cfg →
         obj_get "theme" cfg = first_of (truthy_prop parsed "theme") (given (Some rt)))
    ∧ (∀ cs b,
         config props = Some cs → JSON_parse cs = Some (bag_json b) →
         nested_config (bag_json b) = None → nested_in_alphabet (bag_json b) →
         ∃ cfg, diagramConfig props sys = Normal cfg).
Proof.
  intros props sys rt. repeat split.
  - intros t Ht. subst rt. by rewrite Ht.
  - intros Ht. subst rt. by rewrite Ht.
  - intros H. unfold diagramConfig. fold rt.
    assert (config props = None ∨ ∃ cs, config props = Some cs ∧ JSON_parse cs = None)
      as H' by (destruct H as [?|(cs & ? & ? & _)]; eauto).
    rewrite (absent_or_unparsable_config _ _ H'), bind_ret.
    eexists. split; [reflexivity|].
    rewrite obj_get_set_other by done. simpl. by destruct (is_empty rt).
  - intros cs parsed nested Hc Hp Hn.
    assert (parsed ≠ JNull) as Hnull by (intros ->; discriminate).
    unfold diagramConfig. fold rt. rewrite Hc.
    rewrite (buildMermaidConfig_parsed _ _ _ Hp Hnull), Hn, bind_ret.
    eexists. split; [reflexivity|].
    rewrite obj_get_set_other by done. rewrite override_theme_get. f_equal.
    unfold truthy_prop. destruct (get_prop parsed "theme") as [t|]; [|done].
    destruct (truthy t); [|done]. simpl. apply obj_get_set_same.
  - intros cs parsed cfg Hc Hp Hn _ H.
    apply diagramConfig_Normal in H as (c & Hb & ->). fold rt in Hb.
    rewrite Hc in Hb.
    assert (parsed ≠ JNull) as Hnull.
    { intros ->. unfold buildMermaidConfig in Hb.
      rewrite (JSON_parse_nonempty _ _ Hp), Hp in Hb. discriminate. }
    rewrite (buildMermaidConfig_parsed _ _ _ Hp Hnull), Hn in Hb.
    by apply flat_config_theme.
  - intros cs b Hc Hp Hn _. unfold diagramConfig. rewrite Hc.
    rewrite (buildMermaidConfig_parsed _ _ _ Hp) by done.
    rewrite Hn, flat_config_bag, bind_ret. eauto.
Qed.


Lemma theme_precedence_witness :
  obj_get "theme" [("theme", JStr "forest"); ("themeCSS", JStr "margin: 1.5rem auto 0;")]
  = first_of (truthy_prop (JObj [("theme", JStr "forest")]) "theme") (given (Some "dark")).
Proof.
  apply (proj1 (proj2 (proj2 (proj2 (proj2 (theme_precedence forest_props (Some "light"))))))
           (dq "{'theme':'forest'}") (JObj [("theme", JStr "forest")])
           [("theme", JStr "forest"); ("themeCSS", JStr "margin: 1.5rem auto 0;")]);
    [reflexivity | reflexivity | reflexivity | intros t H; discriminate | reflexivity].
Defined.

(** C1 as stated fails: the component is given the theme prop "dark" and a
    serialized config whose flat [theme] is "forest"; the effective
    configuration has the theme "forest", not the override. *)
Lemma override_loses_to_flat_theme :
  Mermaid {| prop_chart := "graph TD; A-->B"; prop_theme := Some "dark";
             prop_themeCSS := None; prop_config := Some (dq "{'theme':'forest'}");
             prop_exportable := None |} true = Some forest_props
  ∧ diagramConfig forest_props (Some "light")
    = Normal [("theme", JStr "forest"); ("themeCSS", JStr "margin: 1.5rem auto 0;")]
  ∧ JStr "forest" ≠ JStr "dark".
Proof. split; [reflexivity|]. split; [by vm_compute|discriminate]. Qed.

(** ** Strings *)

Lemma append_cons c a b : String c a +:+ b = String c (a +:+ b).
Proof. reflexivity. Qed.

Lemma append_nil b : "" +:+ b = b.
Proof. reflexivity. Qed.

Lemma trimStart_spec s :
  ∃ l, s = l +:+ trimStart s ∧ all_space l = true
       ∧ starts_with_space (trimStart s) = false.
Proof.
  induction s as [|c s (l & Hs & Hl & Ht)]; simpl.
  - by exists "".
  - destruct (is_space c) eqn:Hc.
    + exists (String c l). split; [rewrite append_cons; congruence|].
      split; [|done]. unfold all_space in *. simpl. by rewrite Hc, Hl.
    + exists "". by simpl.
Qed.

Lemma trimEnd_empty s : is_empty (trimEnd s) = true → all_space s = true.
Proof.
  induction s as [|c s IH]; simpl; [done|].
  destruct (is_space c) eqn:Hc; simpl; [|done].
  destruct (is_empty (trimEnd s)) eqn:He; [|done].
  intros _. unfold all_space in *. simpl. rewrite Hc. by apply IH.
Qed.

Lemma is_empty_eq s : is_empty s = true → s = "".
Proof. by destruct s. Qed.

Lemma trimEnd_spec s :
  ∃ r, s = trimEnd s +:+ r ∧ all_space r = true
       ∧ ends_with_space (trimEnd s) = false.
Proof.
  induction s as [|c s (r & Hs & Hr & Ht)]; simpl.
  - by exists "".
  - destruct (is_space c && is_empty (trimEnd s)) eqn:Hc.
    + apply andb_true_iff in Hc as [Hc He].
      exists (String c s). simpl. split; [done|]. split; [|done].
      unfold all_space. simpl. rewrite Hc. by apply trimEnd_empty.
    + exists r. split; [rewrite append_cons; congruence|]. split; [done|].
      destruct (trimEnd s) eqn:E; [|done].
      simpl in Hc. by rewrite andb_true_r in Hc.
Qed.

Lemma trimEnd_start s :
  starts_with_space s = false → starts_with_space (trimEnd s) = false.
Proof.
  destruct s as [|c s]; simpl; [done|]. intros Hc. by rewrite Hc.
Qed.

(** [trim] removes white space at the two ends, and nothing else. *)
Lemma trim_spec s :
  ∃ l r, s = l +:+ trim s +:+ r
         ∧ all_space l = true ∧ all_space r = true
         ∧ starts_with_space (trim s) = false
         ∧ ends_with_space (trim s) = false.
Proof.
  destruct (trimStart_spec s) as (l & Hs & Hl & Ht).
  destruct (trimEnd_spec (trimStart s)) as (r & Hs' & Hr & Ht').
  exists l, r. unfold trim. split; [congruence|].
  repeat split; try done. by apply trimEnd_start.
Qed.



(** ** The block rewriter *)

(** A rewritten node has no children for the walk to descend into. *)
Lemma visitor_children target node node' :
  visitor target node = Some node' → children node' = Some [].
Proof.
  unfold visitor. destruct (value node) as [v|]; [|done].
  destruct (negb _ || _); [done|]. by intros [= <-].
Qed.

Lemma code_leaves_child node l i child :
  code_leaves node = true → children node = Some l → l !! i = Some child →
  type node ≠ "code" ∧ code_leaves child = true.
Proof.
  destruct node as [ty la me va na attrs ch ot]. simpl. intros H -> Hi.
  apply andb_true_iff in H as [Hty Hl]. split.
  - intros ->. by rewrite string_eqb_refl in Hty.
  - rewrite forallb_forall in Hl. apply Hl, list_elem_of_In.
    by eapply list_elem_of_lookup_2.
Qed.

Lemma visit_children target node :
  type node ≠ "code" →
  visit target node
  = MkNode (type node) (lang node) (meta node) (value node) (name node)
      (attributes node) (map (visit target) <$> children node) (others node).
Proof.
  destruct node as [ty la me va na attrs ch ot]. simpl. intros Hty.
  rewrite string_eqb_ne by done. by destruct ch.
Qed.

Lemma visit_code target node :
  type node = "code" → children node = None →
  visit target node = default node (visitor target node).
Proof.
  destruct node as [ty la me va na attrs ch ot]. simpl. intros -> ->.
  rewrite string_eqb_refl. by destruct (visitor _ _).
Qed.

(** In a tree of the document format the walk reaches every node, and what
    stands at a path afterwards is the visited node that stood there. *)
Lemma visit_node_at target path : ∀ tree node,
  code_leaves tree = true → node_at path tree = Some node →
  node_at path (visit target tree) = Some (visit target node).
Proof.
  induction path as [|i path IH]; intros tree node Hwf Hat.
  - simpl in *. congruence.
  - simpl in Hat. destruct (children tree) as [l|] eqn:Hch; [|done].
    destruct (l !! i) as [child|] eqn:Hi; [|done].
    destruct (code_leaves_child _ _ _ _ Hwf Hch Hi) as [Hty Hc].
    rewrite (visit_children _ _ Hty). simpl. rewrite Hch. simpl.
    rewrite list_lookup_fmap, Hi. simpl. by apply IH.
Qed.

Lemma code_leaves_at path : ∀ tree node,
  code_leaves tree = true → node_at path tree = Some node → code_leaves node = true.
Proof.
  induction path as [|i path IH]; intros tree node Hwf Hat; simpl in Hat.
  - congruence.
  - destruct (children tree) as [l|] eqn:Hch; [|done].
    destruct (l !! i) as [child|] eqn:Hi; [|done].
    destruct (code_leaves_child _ _ _ _ Hwf Hch Hi) as [_ Hc]. by eapply IH.
Qed.

Lemma code_leaves_code node :
  code_leaves node = true → type node = "code" → children node = None.
Proof.
  destruct node as [ty la me va na attrs [l|] ot]; simpl; [|done].
  intros H ->. by rewrite string_eqb_refl in H.
Qed.

(** C9. In a tree of the document format, a [code] node whose language is
    not the target, and a [code] node of the target language whose body is
    empty or absent, stand unchanged at their place after the traversal. *)
Theorem other_blocks_unchanged :
  ∀ options tree path node,
    code_leaves tree = true →
    node_at path tree = Some node →
    type node = "code" →
    (lang node ≠ Some (default "mermaid" (opt_lang options))
     ∨ value node = Some "" ∨ value node = None) →
    node_at path (remarkMdxMermaid options tree) = Some node.
Proof.
  intros options tree path node Hwf Hat Hty Hskip. unfold remarkMdxMermaid.
  rewrite (visit_node_at _ _ _ _ Hwf Hat). f_equal.
  rewrite visit_code; [|done|].
  - unfold visitor. destruct Hskip as [Hl | [Hv | Hv]].
    + destruct (value node) as [v|]; [|done]. by rewrite bool_decide_eq_false_2.
    + rewrite Hv. simpl. by rewrite orb_true_r.
    + by rewrite Hv.
  - apply code_leaves_code; [|done]. by eapply code_leaves_at.
Qed.

Lemma other_blocks_unchanged_witness :
  node_at [0] (remarkMdxMermaid default_options sample_tree)
  = Some (code_node (Some "js") None "let x = 1;")
  ∧ node_at [1] (remarkMdxMermaid default_options sample_tree)
    = Some (code_node (Some "mermaid") None "").
Proof.
  split.
  - apply (other_blocks_unchanged default_options sample_tree [0]
             (code_node (Some "js") None "let x = 1;")); try reflexivity.
    left. discriminate.
  - apply (other_blocks_unchanged default_options sample_tree [1]
             (code_node (Some "mermaid") None "")); try reflexivity.
    right. by left.
Defined.

(** C8. In a tree of the document format, a [code] node of the target
    language with a body that is not empty is replaced at its place by a
    [Mermaid] element whose [chart] attribute is the body with the white space
    at its two ends removed and nothing else changed, and which has a
    [config] attribute, the JSON text of the attribute bag, exactly when the
    bag parsed from the meta string is not empty. *)
Theorem rewrite_round_trip :
  ∀ options tree path node body,
    code_leaves tree = true →
    node_at path tree = Some node →
    type node = "code" →
    lang node = Some (default "mermaid" (opt_lang options)) →
    value node = Some body → body ≠ "" →
    let bag := cb_attributes (parseCodeBlockAttributes (default "" (meta node))) in
    ∃ node',
      node_at path (remarkMdxMermaid options tree) = Some node'
      ∧ type node' = "mdxJsxFlowElement" ∧ name node' = Some "Mermaid"
      ∧ read_attribute "chart" node' = Some (trim body)
      ∧ (∃ l r, body = l +:+ trim body +:+ r
                ∧ all_space l = true ∧ all_space r = true
                ∧ starts_with_space (trim body) = false
                ∧ ends_with_space (trim body) = false)
      ∧ read_attribute "config" node'
        = match bag with
          | [] => None
          | _ :: _ => Some (JSON_stringify (bag_json bag))
          end
      ∧ (is_Some (read_attribute "config" node') ↔ bag ≠ []).
Proof.
  intros options tree path node body Hwf Hat Hty Hlang Hval Hbody bag.
  assert (visitor (default "mermaid" (opt_lang options)) node
          = Some (Object_assign node (toMDX body bag))) as Hvis.
  { unfold visitor. rewrite Hval, bool_decide_eq_true_2 by done.
    by destruct body. }
  exists (Object_assign node (toMDX body bag)). split.
  { unfold remarkMdxMermaid. rewrite (visit_node_at _ _ _ _ Hwf Hat). f_equal.
    rewrite visit_code, Hvis; [done..|].
    apply code_leaves_code; [|done]. by eapply code_leaves_at. }
  split; [done|]. split; [done|].
  split. { unfold read_attribute, toMDX. simpl. by destruct (0 <? length bag). }
  split; [apply trim_spec|].
  assert (read_attribute "config" (Object_assign node (toMDX body bag))
          = match bag with
            | [] => None
            | _ :: _ => Some (JSON_stringify (bag_json bag))
            end) as Hcfg.
  { unfold read_attribute, toMDX. by destruct bag. }
  split; [done|]. rewrite Hcfg. destruct bag; split; try done; try (by intros [? ?]); eauto.
Qed.

Lemma rewrite_round_trip_witness :
  ∃ node',
    node_at [2; 0] (remarkMdxMermaid default_options sample_tree) = Some node'
    ∧ type node' = "mdxJsxFlowElement" ∧ name node' = Some "Mermaid"
    ∧ read_attribute "chart" node' = Some "graph TD; A-->B"
    ∧ read_attribute "config" node' = Some (dq "{'theme':'dark','rowHeight':'50'}").
Proof.
  destruct (rewrite_round_trip default_options sample_tree [2; 0]
              (code_node (Some "mermaid") (Some (dq "theme='dark' rowHeight='50'"))
                 (String newline ("  graph TD; A-->B " +:+ String newline EmptyString)))
              (String newline ("  graph TD; A-->B " +:+ String newline EmptyString))
              eq_refl eq_refl eq_refl eq_refl eq_refl)
    as (node' & Hat & Hty & Hname & Hchart & _ & Hconfig & _); [discriminate|].
  exists node'. repeat split; assumption.
Defined.

(** ** The attribute parser *)

Lemma span_all p w r :
  forall_chars p w = true →
  match r with String c _ => p c = false | EmptyString => True end →
  span p (w +:+ r) = (w, r).
Proof.
  intros Hw Hr. induction w as [|c w IH]; simpl in *.
  - destruct r as [|c r]; [done|]. simpl. by rewrite Hr.
  - apply andb_true_iff in Hw as [Hc Hw]. by rewrite Hc, IH.
Qed.

Lemma is_word_not_space c : is_word c = true → is_space c = false.
Proof.
  destruct c as [[] [] [] [] [] [] [] []]; vm_compute; congruence.
Qed.

Lemma word_no_space w : forall_chars is_word w = true → no_space w = true.
Proof.
  unfold no_space. induction w as [|c w IH]; simpl; [done|].
  intros [Hc Hw]%andb_true_iff. by rewrite (is_word_not_space _ Hc), IH.
Qed.

(** Dropping the rest of a match that holds no white space. *)
Lemma replaceAll_skip u : ∀ prev rest b,
  no_space u = true →
  replaceAll prev (String.length u) (u +:+ rest) b
  = replaceAll (if is_empty u then prev else false) 0 rest b.
Proof.
  unfold no_space. induction u as [|c u IH]; intros prev rest b Hu; simpl in *.
  - by destruct rest.
  - apply andb_true_iff in Hu as [Hc Hu]. apply negb_true_iff in Hc.
    rewrite IH by done. rewrite Hc. by destruct (is_empty u).
Qed.


Lemma append_empty_r x : x +:+ "" = x.
Proof. induction x as [|c x IH]; [done|]. by rewrite append_cons, IH. Qed.


Lemma forall_chars_impl (p q : ascii → bool) s :
  (∀ c, p c = true → q c = true) → forall_chars p s = true → forall_chars q s = true.
Proof.
  intros Hpq. induction s as [|c s IH]; simpl; [done|].
  intros [Hc Hs]%andb_true_iff. by rewrite (Hpq _ Hc), IH.
Qed.


(** ** The cache *)

Section CacheFacts.
Context {W : Type}.
Implicit Types (st : Store W) (f : W → Promise * W) (k : string) (p : Promise).

Lemma cachePromise_hit k f st p :
  cache st !! k = Some p → cachePromise k f st = (p, st).
Proof. intros H. unfold cachePromise. by rewrite H. Qed.

Lemma cachePromise_miss k f st :
  cache st !! k = None →
  cachePromise k f st
  = ((f (world st)).1,
     {| cache := <[k := (f (world st)).1]> (cache st); world := (f (world st)).2 |}).
Proof. intros H. unfold cachePromise. rewrite H. by destruct (f (world st)). Qed.

(** The promise a call returns is the one the map holds afterwards. *)
Lemma cachePromise_cached k f st :
  cache (cachePromise k f st).2 !! k = Some (cachePromise k f st).1.
Proof.
  destruct (cache st !! k) as [p|] eqn:H.
  - by rewrite (cachePromise_hit _ _ _ _ H).
  - rewrite (cachePromise_miss _ _ _ H). simpl. apply lookup_insert_eq.
Qed.

(** An entry is never replaced. *)
Lemma cachePromise_mono k f st k' p :
  cache st !! k' = Some p → cache (cachePromise k f st).2 !! k' = Some p.
Proof.
  intros H'. destruct (cache st !! k) as [q|] eqn:H.
  - by rewrite (cachePromise_hit _ _ _ _ H).
  - rewrite (cachePromise_miss _ _ _ H). simpl.
    rewrite lookup_insert_ne; [done|]. intros ->. congruence.
Qed.

Lemma run_cons k f calls st :
  run ((k, f) :: calls) st
  = ((cachePromise k f st).1 :: (run calls (cachePromise k f st).2).1,
     (run calls (cachePromise k f st).2).2).
Proof.
  simpl. destruct (cachePromise k f st) as [p st1]. simpl.
  by destruct (run calls st1).
Qed.

Lemma run_mono calls : ∀ st k p,
  cache st !! k = Some p → cache (run calls st).2 !! k = Some p.
Proof.
  induction calls as [|[k' f] calls IH]; intros st k p H; [done|].
  rewrite run_cons. simpl. by apply IH, cachePromise_mono.
Qed.

(** Every caller gets the promise that the map holds under its key. *)
Lemma run_lookup calls : ∀ st i k f,
  calls !! i = Some (k, f) →
  (run calls st).1 !! i = cache (run calls st).2 !! k
  ∧ is_Some ((run calls st).1 !! i).
Proof.
  induction calls as [|[k' f'] calls IH]; intros st i k f Hi; [done|].
  rewrite run_cons. destruct i as [|i]; simpl in *.
  - injection Hi as -> ->. split; [|eauto].
    symmetry. apply run_mono, cachePromise_cached.
  - by eapply IH.
Qed.

Lemma run_app calls1 : ∀ calls2 st,
  run (calls1 ++ calls2) st
  = ((run calls1 st).1 ++ (run calls2 (run calls1 st).2).1,
     (run calls2 (run calls1 st).2).2).
Proof.
  induction calls1 as [|[k f] calls1 IH]; intros calls2 st.
  - simpl. by destruct (run calls2 st).
  - rewrite <- app_comm_cons, !run_cons, IH. done.
Qed.

End CacheFacts.

Section LogFacts.
Context {W : Type}.

Lemma cachePromise_log_ok call (st : Store (W * list string)) :
  log_ok st → log_ok (cachePromise (logged call).1 (logged call).2 st).2.
Proof.
  intros [Hnd Hin]. destruct call as [k f]. unfold cachePromise, logged. simpl.
  destruct (cache st !! k) as [p|] eqn:H; [done|].
  destruct st as [c [w log]]. simpl in *. destruct (f w) as [p w'].
  split; simpl.
  - apply NoDup_cons. split; [|done]. intros Hk.
    destruct (proj1 (Hin _) Hk) as [? ?]. congruence.
  - intros k'. rewrite elem_of_cons. destruct (decide (k = k')) as [->|Hne].
    + rewrite lookup_insert_eq. split; eauto.
    + rewrite lookup_insert_ne by done. rewrite <- Hin. split; [|eauto].
      by intros [->|?].
Qed.

Lemma run_log_ok calls : ∀ st : Store (W * list string),
  log_ok st → log_ok (run (logged <$> calls) st).2.
Proof.
  induction calls as [|call calls IH]; intros st H; [done|].
  rewrite fmap_cons. destruct (logged call) as [k f] eqn:E.
  rewrite run_cons. simpl. apply IH.
  pose proof (cachePromise_log_ok call st H) as H'. by rewrite E in H'.
Qed.

(** A miss runs the computation and writes its key into the log. *)
Lemma run_length (calls : list (string * (W → Promise * W))) : ∀ st,
  length (run calls st).1 = length calls.
Proof.
  induction calls as [|[k f] calls IH]; intros st; [done|].
  rewrite run_cons. simpl. by rewrite IH.
Qed.
End LogFacts.

(** C2. Over any sequence of calls of [cachePromise] on a fresh map, with
    the computations made to log their key when they are invoked: no key is
    logged twice, so no computation is started more than once for a key;
    every call finds its key logged and returns the promise the map holds
    under that key, so two calls with one key return the same promise; and
    the first call for a key returns the promise its own computation made. *)
Theorem one_computation_per_key :
  ∀ (W : Type) (calls : list (string * (W → Promise * W))) (w : W),
    let start : Store (W * list string) := {| cache := ∅; world := (w, []) |} in
    let result := run (logged <$> calls) start in
    NoDup (world result.2).2
    ∧ (∀ i k f, calls !! i = Some (k, f) →
         k ∈ (world result.2).2
         ∧ is_Some (result.1 !! i)
         ∧ result.1 !! i = cache result.2 !! k)
    ∧ (∀ i j k f g,
         calls !! i = Some (k, f) → calls !! j = Some (k, g) →
         result.1 !! i = result.1 !! j)
    ∧ (∀ i k f, calls !! i = Some (k, f) →
         let before := (run (logged <$> take i calls) start).2 in
         cache before !! k = None →
         result.1 !! i = Some (f (world before).1).1).
Proof.
  intros W calls w start result.
  assert (log_ok start) as Hstart.
  { split; simpl; [apply NoDup_nil_2|]. intros k. rewrite lookup_empty.
    split; [by intros ?%elem_of_nil|by intros [? ?]]. }
  pose proof (run_log_ok calls start Hstart) as [Hnd Hlog]. fold result in Hnd, Hlog.
  assert (∀ i k f, calls !! i = Some (k, f) →
            result.1 !! i = cache result.2 !! k ∧ is_Some (result.1 !! i)) as Hlook.
  { intros i k f Hi. apply (run_lookup (logged <$> calls) start i k (logged (k, f)).2).
    by rewrite list_lookup_fmap, Hi. }
  split; [done|]. split; [|split].
  - intros i k f Hi. destruct (Hlook _ _ _ Hi) as [Heq Hsome].
    split; [|done]. apply Hlog. by rewrite <- Heq.
  - intros i j k f g Hi Hj.
    destruct (Hlook _ _ _ Hi) as [-> _]. by destruct (Hlook _ _ _ Hj) as [-> _].
  - intros i k f Hi before Hnone. subst result.
    rewrite <- (take_drop_middle calls i (k, f) Hi) at 1.
    rewrite fmap_app, fmap_cons, run_app. cbn [fst].
    assert (length (run (logged <$> take i calls) start).1 = i) as Hlen.
    { rewrite run_length, length_fmap, length_take.
      apply lookup_lt_Some in Hi. lia. }
    rewrite lookup_app_r by lia. rewrite Hlen, Nat.sub_diag.
    fold before. unfold logged at 1. rewrite run_cons. cbn [fst snd lookup list_lookup].
    unfold cachePromise. rewrite Hnone.
    destruct (world before) as [w' log]. simpl. by destruct (f w').
Qed.

Lemma one_computation_per_key_witness :
  (run (logged <$> sample_calls) {| cache := ∅; world := (0, []) |}).1 !! 0
  = (run (logged <$> sample_calls) {| cache := ∅; world := (0, []) |}).1 !! 2.
Proof.
  exact (proj1 (proj2 (proj2 (one_computation_per_key nat sample_calls 0)))
           0 2 "mermaid" _ _ eq_refl eq_refl).
Defined.

(** ** The component *)







(** * Further properties *)

(** ** The attribute parser on well-formed meta strings *)

Lemma append_assoc_s a b c : (a +:+ b) +:+ c = a +:+ (b +:+ c).
Proof. induction a as [|x a IH]; [done|]. by rewrite !append_cons, IH. Qed.

Lemma length_append_s a b : len (a +:+ b) = len a + len b.
Proof. induction a as [|x a IH]; [done|]. rewrite append_cons. simpl. by rewrite IH. Qed.

Lemma is_space_not_word c : is_space c = true → is_word c = false.
Proof.
  intros H. destruct (is_word c) eqn:E; [|done].
  apply is_word_not_space in E. congruence.
Qed.

(** Dropping the rest of a match, whatever it holds. *)
Lemma replaceAll_skip_any u : ∀ prev rest b,
  replaceAll prev (len u) (u +:+ rest) b = replaceAll (after prev u) 0 rest b.
Proof.
  induction u as [|c u IH]; intros prev rest b; simpl.
  - by destruct rest.
  - apply IH.
Qed.

(** White space is never matched and stays in the text. *)
Lemma replaceAll_space u : ∀ prev s b,
  all_space u = true →
  replaceAll prev 0 (u +:+ s) b
  = ((replaceAll (after prev u) 0 s b).1, u +:+ (replaceAll (after prev u) 0 s b).2).
Proof.
  unfold all_space. induction u as [|c u IH]; intros prev s b Hu.
  - rewrite !append_nil. cbn [after]. by destruct (replaceAll prev 0 s b).
  - simpl in Hu. apply andb_true_iff in Hu as [Hc Hu].
    rewrite append_cons. cbn [replaceAll after].
    assert ((if prev then match_here (String c (u +:+ s)) else None) = None) as ->.
    { destruct prev; [|done]. unfold match_here. simpl.
      by rewrite (is_space_not_word _ Hc). }
    rewrite IH by done. by rewrite append_cons.
Qed.

Lemma match_value_other c r : Ascii.eqb c "=" = false → match_value (String c r) = None.
Proof. destruct c as [[] [] [] [] [] [] [] []]; intros H; try done. Qed.

Lemma match_value_empty : match_value "" = None.
Proof. done. Qed.

Lemma is_space_not_equals c : is_space c = true → Ascii.eqb c "=" = false.
Proof. destruct c as [[] [] [] [] [] [] [] []]; vm_compute; congruence. Qed.

Lemma after_word prev w :
  w ≠ "" → forall_chars is_word w = true → after prev w = false.
Proof.
  revert prev. induction w as [|c w IH]; intros prev Hne Hw; [done|].
  simpl in *. apply andb_true_iff in Hw as [Hc Hw].
  destruct w as [|c' w']; [by apply is_word_not_space|].
  by apply IH.
Qed.

Lemma after_app prev u v : after prev (u +:+ v) = after (after prev u) v.
Proof. revert prev. induction u as [|c u IH]; intros prev; [done|]. apply IH. Qed.

(** One token, followed by white space or by nothing, is matched whole. *)
Lemma replaceAll_token t s b :
  wf_token t →
  (s = "" ∨ starts_with_space s = true) →
  replaceAll true 0 (token_text t +:+ s) b
  = replaceAll false 0 s (bag_set (token_name t) (token_value t) b).
Proof.
  intros (Hne & Hw & Hv) Hs.
  assert (match s with String c _ => is_word c = false | EmptyString => True end) as Hs'.
  { destruct Hs as [-> | Hs]; [done|]. destruct s; [done|]. by apply is_space_not_word. }
  assert (match_value s = None) as Hmv.
  { destruct Hs as [-> | Hs]; [done|]. destruct s; [done|].
    by apply match_value_other, is_space_not_equals. }
  destruct t as [n | n q v]; simpl in *.
  - destruct n as [|c n]; [done|]. rewrite append_cons. cbn [replaceAll].
    rewrite <- append_cons. unfold match_here.
    rewrite (span_all is_word (String c n) s) by done. cbn [is_empty].
    rewrite Hmv. cbn [String.length Nat.pred].
    rewrite replaceAll_skip_any. f_equal.
    simpl in Hw. apply andb_true_iff in Hw as [Hc Hw].
    destruct n as [|c' n']; [by apply is_word_not_space|].
    by apply after_word.
  - destruct Hv as [Hq Hv].
    destruct n as [|c n]; [done|]. rewrite append_assoc_s, append_cons. cbn [replaceAll].
    rewrite <- append_cons. unfold match_here.
    rewrite (span_all is_word (String c n)) by done. cbn [is_empty].
    assert (match_value (String "=" (String q (v +:+ String q "")) +:+ s)
            = Some (v, 3 + len v)) as ->.
    { rewrite !append_cons, append_assoc_s, append_cons, append_nil. simpl.
      assert (Ascii.eqb q dquote || Ascii.eqb q squote = true) as ->
        by (destruct Hq as [-> | ->]; reflexivity).
      rewrite (span_all _ v (String q s)); [done..|].
      by rewrite Ascii.eqb_refl. }
    change (Init.Nat.pred (len (String c n) + (3 + len v))) with (len n + (3 + len v)).
    replace (len n + (3 + len v)) with (len (n +:+ String "=" (String q (v +:+ String q ""))))
      by (rewrite length_append_s; simpl; rewrite length_append_s; simpl; lia).
    rewrite <- append_assoc_s, replaceAll_skip_any. f_equal.
    rewrite after_app. simpl. rewrite after_app. simpl.
    by destruct Hq as [-> | ->].
Qed.

Lemma all_space_after prev u : all_space u = true → u ≠ "" → after prev u = true.
Proof.
  unfold all_space. revert prev. induction u as [|c u IH]; intros prev Hu Hne; [done|].
  simpl in *. apply andb_true_iff in Hu as [Hc Hu].
  destruct u as [|c' u']; [done|]. by apply IH.
Qed.

Lemma all_space_start u s :
  all_space u = true → u ≠ "" → starts_with_space (u +:+ s) = true.
Proof.
  unfold all_space. destruct u as [|c u]; [done|]. simpl.
  by intros [? ?]%andb_true_iff.
Qed.

Lemma meta_text_start items :
  wf_items items → items = [] ∨ ¬ starts_with_space (meta_text items) = true.
Proof.
  destruct items as [|[t sep] rest]; [by left|]. intros ((Hne & Hw & _) & _). right.
  simpl. destruct t as [n|n q v]; simpl in *; destruct n as [|c n]; try done;
    simpl in *; apply andb_true_iff in Hw as [Hc _];
    by rewrite (is_word_not_space _ Hc).
Qed.

(** The tokens of a well-formed text are all matched; the white space stays. *)
Lemma replaceAll_items items : ∀ b,
  wf_items items →
  replaceAll true 0 (meta_text items) b
  = (assign_all (items.*1) b, foldr String.append "" (items.*2)).
Proof.
  induction items as [|[t sep] rest IH]; intros b Hwf; [done|].
  destruct Hwf as (Ht & Hsep & Hlast & Hrest). cbn [meta_text fmap list_fmap fst snd].
  rewrite replaceAll_token; [|done|].
  2:{ destruct (decide (sep = "")) as [->|Hne].
      - destruct Hlast as [-> | ?]; [by left|done].
      - right. by apply all_space_start. }
  rewrite replaceAll_space by done.
  destruct (decide (sep = "")) as [->|Hne].
  - destruct Hlast as [-> | ?]; [|done]. simpl. done.
  - by rewrite (all_space_after _ _ Hsep Hne), IH by done.
Qed.

Lemma trimStart_all_space s : all_space s = true → trimStart s = "".
Proof.
  unfold all_space. induction s as [|c s IH]; simpl; [done|].
  intros [Hc Hs]%andb_true_iff. rewrite Hc. by apply IH.
Qed.

Lemma trim_all_space s : all_space s = true → trim s = "".
Proof. intros H. unfold trim. by rewrite trimStart_all_space. Qed.

Lemma all_space_app a b :
  all_space a = true → all_space b = true → all_space (a +:+ b) = true.
Proof.
  unfold all_space. induction a as [|c a IH]; [done|]. rewrite append_cons. simpl.
  intros [Hc Ha]%andb_true_iff Hb. rewrite Hc. by apply IH.
Qed.

Lemma wf_items_spaces items :
  wf_items items → all_space (foldr String.append "" (items.*2)) = true.
Proof.
  induction items as [|[t sep] rest IH]; [done|].
  intros (_ & Hsep & _ & Hrest). specialize (IH Hrest). simpl.
  by apply all_space_app.
Qed.

Lemma parse_items lead items :
  all_space lead = true → wf_items items →
  parseCodeBlockAttributes (lead +:+ meta_text items)
  = {| cb_attributes := (assign_all (items.*1) (false, [])).2; cb_rest := "" |}.
Proof.
  intros Hlead Hwf. unfold parseCodeBlockAttributes.
  rewrite replaceAll_space by done.
  assert (after true lead = true) as ->.
  { destruct (decide (lead = "")) as [->|Hne]; [done|]. by apply all_space_after. }
  rewrite replaceAll_items by done. cbn [fst snd]. f_equal.
  apply trim_all_space, all_space_app; [done|]. by apply wf_items_spaces.
Qed.

(** X1. A meta string made of well-formed tokens (a name, or a name with a
    value between two double quotes or two apostrophes that holds no quote
    of that kind), with white space between them and around them, is
    consumed whole: the bag is what the assignments of the tokens make, in
    their order, and the residual is empty. *)
Theorem well_formed_meta_parsed :
  ∀ (lead : string) (items : list (token * string)),
    all_space lead = true → wf_items items →
    parseCodeBlockAttributes (lead +:+ meta_text items)
    = {| cb_attributes := (assign_all (items.*1) (false, [])).2; cb_rest := "" |}.
Proof. intros lead items. apply parse_items. Qed.

Lemma well_formed_meta_parsed_witness :
  parseCodeBlockAttributes
      (" " +:+ meta_text [(Attr "theme" dquote "dark", "  "); (Flag "wide", " ");
                          (Attr "title" squote (dq "a 'b'"), "")])
    = {| cb_attributes := [("theme", Some "dark"); ("wide", None);
                           ("title", Some (dq "a 'b'"))];
         cb_rest := "" |}.
Proof.
  apply (well_formed_meta_parsed " "
           [(Attr "theme" dquote "dark", "  "); (Flag "wide", " ");
            (Attr "title" squote (dq "a 'b'"), "")]); [reflexivity|].
  repeat split; try reflexivity; try discriminate; auto.
Defined.

Lemma bag_set_get n v b k :
  k ≠ "__proto__" →
  obj_get k (bag_set n v b).2 = if string_eqb n k then Some v else obj_get k b.2.
Proof.
  intros Hk. destruct b as [pn props]. unfold bag_set.
  destruct (string_eqb n "__proto__" && negb pn) eqn:E.
  - apply andb_true_iff in E as [E _]. unfold string_eqb in E.
    apply bool_decide_eq_true in E as ->.
    rewrite string_eqb_ne by done. by destruct v.
  - simpl. destruct (decide (n = k)) as [->|Hne].
    + by rewrite string_eqb_refl, obj_get_set_same.
    + by rewrite string_eqb_ne, obj_get_set_other.
Qed.

Lemma assign_all_get toks : ∀ b k,
  k ≠ "__proto__" →
  obj_get k (assign_all toks b).2
  = match last_value k toks with
    | Some v => Some v
    | None => obj_get k b.2
    end.
Proof.
  induction toks as [|t toks IH]; intros b k Hk; [done|].
  unfold assign_all in *. simpl. rewrite IH by done.
  destruct (last_value k toks); [done|]. rewrite bag_set_get by done.
  by destruct (string_eqb (token_name t) k).
Qed.

(** X2. In a well-formed meta string the last token of a name decides: the
    bag holds under a name the value of its last token ([null] for a bare
    name), and nothing under a name that no token has. *)
Theorem last_occurrence_wins :
  ∀ (lead : string) (items : list (token * string)) (k : string),
    all_space lead = true → wf_items items → k ≠ "__proto__" →
    obj_get k (cb_attributes (parseCodeBlockAttributes (lead +:+ meta_text items)))
    = last_value k (items.*1).
Proof.
  intros lead items k Hlead Hwf Hk.
  rewrite parse_items by done. simpl.
  rewrite assign_all_get by done. by destruct (last_value k _).
Qed.

Lemma last_occurrence_wins_witness :
  obj_get "theme"
    (cb_attributes (parseCodeBlockAttributes
       (meta_text [(Attr "theme" dquote "dark", " "); (Flag "theme", " ");
                   (Attr "theme" squote "forest", "")])))
  = Some (Some "forest").
Proof.
  apply (last_occurrence_wins ""
           [(Attr "theme" dquote "dark", " "); (Flag "theme", " ");
            (Attr "theme" squote "forest", "")] "theme"); [reflexivity| |discriminate].
  repeat split; try reflexivity; try discriminate; auto.
Defined.

(** ** A token whose quote is not closed *)









(** ** The order of own properties *)

Lemma span_spec p s : ∀ a b,
  span p s = (a, b) → s = a +:+ b ∧ forall_chars p a = true.
Proof.
  induction s as [|c s IH]; intros a b; simpl.
  - by intros [= <- <-].
  - destruct (p c) eqn:Hc.
    + destruct (span p s) as [a' b'] eqn:E. intros [= <- <-].
      destruct (IH _ _ eq_refl) as [-> H]. split; [done|]. simpl. by rewrite Hc.
    + by intros [= <- <-].
Qed.

Lemma digits_value_acc s : ∀ acc,
  (digits_value acc s = acc * 10 ^ N.of_nat (len s) + digits_value 0 s)%N.
Proof.
  induction s as [|c s IH]; intros acc.
  - simpl. lia.
  - cbn [digits_value String.length]. rewrite (IH (acc * 10 + digit_value c)%N).
    rewrite (IH (0 * 10 + digit_value c)%N).
    rewrite Nat2N.inj_succ, N.pow_succ_r'. lia.
Qed.

Lemma digit_value_bound c : is_digit c = true → (digit_value c <= 9)%N.
Proof.
  unfold is_digit, in_range, digit_value. intros [H1 H2]%andb_true_iff.
  apply N.leb_le in H1, H2. lia.
Qed.

Lemma digits_value_bound s :
  forall_chars is_digit s = true → (digits_value 0 s < 10 ^ N.of_nat (len s))%N.
Proof.
  induction s as [|c s IH]; [simpl; lia|].
  simpl forall_chars. intros [Hc Hs]%andb_true_iff. specialize (IH Hs).
  cbn [digits_value String.length]. rewrite digits_value_acc.
  rewrite Nat2N.inj_succ, N.pow_succ_r'. pose proof (digit_value_bound _ Hc). nia.
Qed.

Lemma digit_value_inj c d :
  is_digit c = true → is_digit d = true → digit_value c = digit_value d → c = d.
Proof.
  unfold is_digit, in_range, digit_value, code.
  intros [H1 H2]%andb_true_iff [H3 H4]%andb_true_iff H.
  apply N.leb_le in H1, H2, H3, H4.
  rewrite <- (ascii_N_embedding c), <- (ascii_N_embedding d). f_equal. lia.
Qed.

Lemma digits_value_inj s : ∀ t,
  forall_chars is_digit s = true → forall_chars is_digit t = true →
  len s = len t → digits_value 0 s = digits_value 0 t → s = t.
Proof.
  induction s as [|c s IH]; intros [|d t] Hs Ht Hl Hv; try done.
  simpl in Hs, Ht. apply andb_true_iff in Hs as [Hc Hs]. apply andb_true_iff in Ht as [Hd Ht].
  injection Hl as Hl. cbn [digits_value] in Hv.
  rewrite (digits_value_acc s), (digits_value_acc t), <- Hl in Hv.
  pose proof (digits_value_bound _ Hs) as Bs. pose proof (digits_value_bound _ Ht) as Bt.
  rewrite <- Hl in Bt.
  pose proof (digit_value_bound _ Hc). pose proof (digit_value_bound _ Hd).
  assert (digit_value c = digit_value d ∧ digits_value 0 s = digits_value 0 t) as [E1 E2].
  { set (P := (10 ^ N.of_nat (len s))%N) in *.
    destruct (N.lt_trichotomy (digit_value c) (digit_value d)) as [L|[E|L]].
    - assert ((digit_value c + 1) * P <= digit_value d * P)%N
        by (apply N.mul_le_mono_r; lia). lia.
    - rewrite E in Hv. lia.
    - assert ((digit_value d + 1) * P <= digit_value c * P)%N
        by (apply N.mul_le_mono_r; lia). lia. }
  f_equal; [by apply digit_value_inj|by apply IH].
Qed.

(** What [array_index] asks of a name. *)
Lemma array_index_spec k i :
  array_index k = Some i →
  forall_chars is_digit k = true ∧ i = digits_value 0 k
  ∧ ∃ c r, k = String c r ∧ (r = "" ∨ Ascii.eqb c "0" = false).
Proof.
  unfold array_index. destruct k as [|c r]; [done|].
  destruct (span is_digit (String c r)) as [ds rest] eqn:E.
  destruct (is_empty rest && (is_empty r || negb (Ascii.eqb c "0"))
            && (len (String c r) <=? 10)) eqn:H; [|done].
  apply andb_true_iff in H as [[H1 H2]%andb_true_iff _].
  destruct (_ <=? _)%N; [|done]. intros [= <-].
  apply span_spec in E as [E Hd]. apply is_empty_eq in H1 as ->.
  rewrite append_empty_r in E. subst ds. split; [done|]. split; [done|].
  exists c, r. split; [done|]. apply orb_true_iff in H2 as [H2|H2].
  - left. by apply is_empty_eq.
  - right. by apply negb_true_iff.
Qed.

Lemma digits_value_lower c r :
  forall_chars is_digit (String c r) = true → Ascii.eqb c "0" = false →
  (10 ^ N.of_nat (len r) <= digits_value 0 (String c r))%N.
Proof.
  simpl forall_chars. intros [Hc Hr]%andb_true_iff H0.
  cbn [digits_value]. rewrite digits_value_acc.
  assert (1 <= digit_value c)%N.
  { unfold is_digit, in_range, digit_value, code in *.
    apply andb_true_iff in Hc as [H1 H2]. apply N.leb_le in H1, H2.
    destruct (N.eq_dec (N_of_ascii c) 48%N) as [E|E]; [|lia].
    assert (c = "0"%char) as -> by (rewrite <- (ascii_N_embedding c), E; reflexivity).
    done. }
  nia.
Qed.

Lemma pow10_mono a b : a ≤ b → (10 ^ N.of_nat a <= 10 ^ N.of_nat b)%N.
Proof. intros H. apply N.pow_le_mono_r; lia. Qed.

(** Two names of one array index are one name. *)
Lemma array_index_inj a b i :
  array_index a = Some i → array_index b = Some i → a = b.
Proof.
  intros (Ha & Hi & ca & ra & -> & Hca)%array_index_spec
         (Hb & Hj & cb & rb & -> & Hcb)%array_index_spec.
  assert (len (String ca ra) = len (String cb rb)) as Hl.
  { destruct (Nat.lt_trichotomy (len ra) (len rb)) as [Hlt|[Heq|Hlt]].
    - exfalso. destruct Hcb as [-> | Hcb]; [simpl in Hlt; lia|].
      pose proof (digits_value_lower _ _ Hb Hcb).
      pose proof (digits_value_bound _ Ha). pose proof (pow10_mono (len (String ca ra)) (len rb)).
      simpl in *. lia.
    - simpl. lia.
    - exfalso. destruct Hca as [-> | Hca]; [simpl in Hlt; lia|].
      pose proof (digits_value_lower _ _ Ha Hca).
      pose proof (digits_value_bound _ Hb). pose proof (pow10_mono (len (String cb rb)) (len ra)).
      simpl in *. lia. }
  apply digits_value_inj; try done. congruence.
Qed.

Section OrderFacts.
Context {A : Type}.
Implicit Types (o : list (string * A)) (k : string) (v : A).

Lemma string_eqb_true k k' : string_eqb k k' = true → k = k'.
Proof. unfold string_eqb. by intros ?%bool_decide_eq_true. Qed.

Lemma obj_get_None k o : obj_get k o = None ↔ k ∉ o.*1.
Proof.
  induction o as [|[k' v'] o IH]; simpl.
  - split; [intros _; apply not_elem_of_nil|done].
  - rewrite not_elem_of_cons. destruct (string_eqb k k') eqn:E.
    + apply string_eqb_true in E. split; [done|]. by intros [? _].
    + rewrite IH. split; [|tauto]. intros H. split; [|done]. intros ->.
      by rewrite string_eqb_refl in E.
Qed.

Lemma obj_has_false k o : obj_has k o = false ↔ k ∉ o.*1.
Proof.
  unfold obj_has. rewrite <- obj_get_None. by destruct (obj_get k o).
Qed.

Lemma obj_replace_keys k v o : (obj_replace k v o).*1 = o.*1.
Proof.
  induction o as [|[k' v'] o IH]; [done|]. cbn [obj_replace].
  destruct (string_eqb k k'); rewrite !fmap_cons; [done|]. by rewrite IH.
Qed.

Lemma obj_insert_index_elem i k v o x :
  x ∈ (obj_insert_index i k v o).*1 ↔ x = k ∨ x ∈ o.*1.
Proof.
  induction o as [|[k' v'] o IH]; simpl.
  - rewrite list_elem_of_singleton. split; [by left|]. intros [?|?%elem_of_nil]; done.
  - destruct (array_index k') as [j|]; [destruct (j <? i)%N|]; simpl;
      rewrite ?elem_of_cons, ?IH; simpl; tauto.
Qed.

Lemma key_before_index_trans k k' x i j :
  array_index k = Some i → array_index k' = Some j → (i < j)%N →
  key_before k' x → key_before k x.
Proof.
  unfold key_before. intros -> ->. destruct (array_index x); [lia|done].
Qed.

Lemma key_before_after_name k k' x i :
  array_index k = Some i → array_index k' = None → key_before k' x → key_before k x.
Proof.
  unfold key_before. intros -> ->. by destruct (array_index x).
Qed.

Lemma obj_insert_index_ordered i k v o :
  array_index k = Some i → k ∉ o.*1 → keys_ordered (o.*1) →
  keys_ordered ((obj_insert_index i k v o).*1).
Proof.
  intros Hk. induction o as [|[k' v'] o IH]; simpl.
  - intros _ _. split; [constructor|]. split; [apply not_elem_of_nil|done].
  - intros [Hne Hnot]%not_elem_of_cons (Hfa & Hk' & Ho).
    destruct (array_index k') as [j|] eqn:Ej; [destruct (j <? i)%N eqn:Eji|]; simpl.
    + apply N.ltb_lt in Eji. split; [|split].
      * apply Forall_forall. intros x [->|Hx]%obj_insert_index_elem.
        -- unfold key_before. by rewrite Ej, Hk.
        -- by eapply Forall_forall in Hfa.
      * intros [->|Hx]%obj_insert_index_elem; done.
      * by apply IH.
    + apply N.ltb_ge in Eji.
      assert (i < j)%N as Hlt.
      { destruct (N.eq_dec i j) as [->|]; [|lia].
        destruct Hne. by eapply array_index_inj. }
      split; [|split].
      * constructor; [unfold key_before; by rewrite Hk, Ej|].
        eapply Forall_impl; [exact Hfa|]. intros x. by eapply key_before_index_trans.
      * by apply not_elem_of_cons.
      * done.
    + split; [|split].
      * constructor; [unfold key_before; by rewrite Hk, Ej|].
        eapply Forall_impl; [exact Hfa|]. intros x. by eapply key_before_after_name.
      * by apply not_elem_of_cons.
      * done.
Qed.

Lemma keys_ordered_snoc ks k :
  array_index k = None → k ∉ ks → keys_ordered ks → keys_ordered (ks ++ [k]).
Proof.
  intros Hk. induction ks as [|x ks IH]; simpl.
  - intros _ _. split; [constructor|]. split; [apply not_elem_of_nil|done].
  - intros [Hne Hnot]%not_elem_of_cons (Hfa & Hx & Hks). split; [|split].
    + apply Forall_app. split; [done|]. constructor; [|constructor].
      unfold key_before. rewrite Hk. by destruct (array_index x).
    + rewrite elem_of_app, list_elem_of_singleton. intros [?|?]; [done|]. by subst.
    + by apply IH.
Qed.

(** Defining a property keeps the own properties in the order of enumeration. *)
Lemma obj_set_ordered k v o :
  keys_ordered (o.*1) → keys_ordered ((obj_set k v o).*1).
Proof.
  intros Ho. unfold obj_set. destruct (obj_has k o) eqn:Hh.
  - by rewrite obj_replace_keys.
  - apply obj_has_false in Hh. destruct (array_index k) as [i|] eqn:Ek.
    + by apply obj_insert_index_ordered.
    + rewrite fmap_app. by apply keys_ordered_snoc.
Qed.

Lemma keys_ordered_app_inv (a b : list string) :
  keys_ordered (a ++ b) →
  keys_ordered a ∧ keys_ordered b ∧ ∀ x y, x ∈ a → y ∈ b → key_before x y ∧ x ≠ y.
Proof.
  induction a as [|c a IH]; simpl.
  - intros H. split; [done|]. split; [done|]. by intros x y ?%elem_of_nil.
  - intros (Hfa & Hc & Hr). destruct (IH Hr) as (Ha & Hb & Hab).
    apply Forall_app in Hfa as [Hfa1 Hfa2].
    apply not_elem_of_app in Hc as [Hc1 Hc2].
    split; [done|]. split; [done|].
    intros x y [->|Hx]%elem_of_cons Hy; [|by apply Hab].
    split; [by eapply Forall_forall in Hfa2|]. by intros ->.
Qed.

Lemma obj_insert_index_end i k v o :
  (∀ x, x ∈ o.*1 → ∃ j, array_index x = Some j ∧ (j < i)%N) →
  obj_insert_index i k v o = o ++ [(k, v)].
Proof.
  induction o as [|[k' v'] o IH]; simpl; [done|]. intros H.
  destruct (H k') as (j & -> & Hj); [apply elem_of_cons; by left|].
  apply N.ltb_lt in Hj. rewrite Hj. f_equal. apply IH.
  intros x Hx. apply H. apply elem_of_cons. by right.
Qed.

(** An object whose properties are in the order of enumeration is what the
    assignments of its properties, one after the other, build. *)
Lemma rebuild_ordered (l : list (string * A)) : ∀ acc,
  keys_ordered ((acc ++ l).*1) → rebuild l acc = acc ++ l.
Proof.
  unfold rebuild. induction l as [|[k v] l IH]; intros acc H; simpl.
  - by rewrite app_nil_r.
  - assert (obj_set k v acc = acc ++ [(k, v)]) as ->.
    { rewrite fmap_app in H. apply keys_ordered_app_inv in H as (_ & _ & H).
      assert (∀ x, x ∈ acc.*1 → key_before x k ∧ x ≠ k) as Hk.
      { intros x Hx. apply H; [done|]. simpl. apply elem_of_cons. by left. }
      unfold obj_set.
      assert (obj_has k acc = false) as ->.
      { apply obj_has_false. intros Hin. by destruct (Hk _ Hin). }
      destruct (array_index k) as [i|] eqn:Ek; [|done].
      apply obj_insert_index_end. intros x Hx. destruct (Hk _ Hx) as [Hb _].
      unfold key_before in Hb. rewrite Ek in Hb.
      destruct (array_index x) as [j|]; [by exists j|done]. }
    rewrite IH; rewrite <- app_assoc; done.
Qed.

End OrderFacts.

(** ** The attribute parser on any meta string *)

Section BagInvariant.
Variable ok : string → option string → Prop.

Lemma obj_set_entries {A : Type} (k : string) (v : A) o x w :
  (x, w) ∈ obj_set k v o → (x = k ∧ w = v) ∨ (x, w) ∈ o.
Proof.
  unfold obj_set. destruct (obj_has k o).
  - induction o as [|[k' v'] o IH]; simpl; [by right|].
    destruct (string_eqb k k') eqn:E.
    + apply string_eqb_true in E as <-.
      intros [[= -> ->]|H]%elem_of_cons; [by left|]. right. by apply elem_of_cons; right.
    + intros [[= -> ->]|H]%elem_of_cons; [right; apply list_elem_of_here|].
      destruct (IH H) as [?|?]; [by left|]. right. by apply elem_of_cons; right.
  - destruct (array_index k) as [i|].
    + induction o as [|[k' v'] o IH]; simpl.
      * intros [= -> ->]%list_elem_of_singleton. by left.
      * destruct (array_index k') as [j|]; [destruct (j <? i)%N|].
        -- intros [[= -> ->]|H]%elem_of_cons; [right; apply list_elem_of_here|].
           destruct (IH H) as [?|?]; [by left|]. right. by apply elem_of_cons; right.
        -- intros [[= -> ->]|H]%elem_of_cons; [by left|by right].
        -- intros [[= -> ->]|H]%elem_of_cons; [by left|by right].
    + intros [H|[= -> ->]%list_elem_of_singleton]%elem_of_app; [by right|by left].
Qed.

Lemma bag_set_entries n v (b : bag) :
  ok n v → (∀ x w, (x, w) ∈ b.2 → ok x w) →
  ∀ x w, (x, w) ∈ (bag_set n v b).2 → ok x w.
Proof.
  intros Hn Hb x w. destruct b as [pn props]. unfold bag_set.
  destruct (string_eqb n "__proto__" && negb pn).
  - destruct v; apply Hb.
  - simpl. intros [[-> ->]|H]%obj_set_entries; [done|by apply Hb].
Qed.

Lemma bag_set_ordered n v (b : bag) :
  keys_ordered (b.2.*1) → keys_ordered ((bag_set n v b).2.*1).
Proof.
  destruct b as [pn props]. unfold bag_set.
  destruct (string_eqb n "__proto__" && negb pn).
  - by destruct v.
  - apply obj_set_ordered.
Qed.

Hypothesis match_ok : ∀ s n v l, match_here s = Some (n, v, l) → ok n v.

Lemma replaceAll_entries s : ∀ prev skip (b : bag),
  (∀ x w, (x, w) ∈ b.2 → ok x w) →
  ∀ x w, (x, w) ∈ (replaceAll prev skip s b).1.2 → ok x w.
Proof.
  induction s as [|c s IH]; intros prev skip b Hb; [done|].
  cbn [replaceAll]. destruct skip as [|k]; [|by apply IH].
  destruct (if prev then match_here (String c s) else None) as [[[n v] l]|] eqn:E.
  - apply IH. apply bag_set_entries; [|done].
    destruct prev; [|done]. by eapply match_ok.
  - specialize (IH (is_space c) 0 b Hb).
    by destruct (replaceAll (is_space c) 0 s b).
Qed.

End BagInvariant.

Lemma replaceAll_ordered s : ∀ prev skip (b : bag),
  keys_ordered (b.2.*1) → keys_ordered ((replaceAll prev skip s b).1.2.*1).
Proof.
  induction s as [|c s IH]; intros prev skip b Hb; [done|].
  cbn [replaceAll]. destruct skip as [|k]; [|by apply IH].
  destruct (if prev then match_here (String c s) else None) as [[[n v] l]|] eqn:E.
  - apply IH. by apply bag_set_ordered.
  - specialize (IH (is_space c) 0 b Hb).
    by destruct (replaceAll (is_space c) 0 s b).
Qed.

Lemma match_value_quote r v l : match_value r = Some (v, l) → one_quote_kind (Some v).
Proof.
  destruct r as [|e r]; [done|].
  destruct (Ascii.eqb e "=") eqn:Ee; [|by rewrite match_value_other].
  apply Ascii.eqb_eq in Ee as ->. destruct r as [|q r]; [done|]. cbn [match_value].
  destruct (Ascii.eqb q dquote || Ascii.eqb q squote) eqn:Eq; [|done].
  destruct (span (λ c, negb (Ascii.eqb c q)) r) as [v' r'] eqn:Es.
  apply span_spec in Es as [_ Hv]. destruct r'; [done|]. intros [= <- _].
  apply orb_true_iff in Eq as [->%Ascii.eqb_eq| ->%Ascii.eqb_eq]; [by left|by right].
Qed.

Lemma match_here_ok s n v l :
  match_here s = Some (n, v, l) →
  n ≠ "" ∧ forall_chars is_word n = true ∧ one_quote_kind v.
Proof.
  unfold match_here. destruct (span is_word s) as [w r] eqn:Es.
  apply span_spec in Es as [_ Hw].
  destruct (is_empty w) eqn:Ew; [done|].
  assert (w ≠ "") by (by intros ->).
  destruct (match_value r) as [[v' l']|] eqn:Ev.
  - intros [= <- <- _]. repeat split; try done. by eapply match_value_quote.
  - by intros [= <- <- _].
Qed.

Lemma parsed_bag_ordered meta :
  keys_ordered ((cb_attributes (parseCodeBlockAttributes meta)).*1).
Proof.
  unfold parseCodeBlockAttributes.
  pose proof (replaceAll_ordered meta true 0 (false, []) I) as H.
  by destruct (replaceAll true 0 meta (false, [])).
Qed.

(** X3. Whatever the meta string, the bag the parser returns has its own
    properties in the order of enumeration of an object: array indices
    first and ascending, then the other names, and no name twice. *)
Theorem attributes_in_enumeration_order :
  ∀ meta : string,
    keys_ordered ((cb_attributes (parseCodeBlockAttributes meta)).*1).
Proof.
  apply parsed_bag_ordered.
Qed.

(** X4. Whatever the meta string, every property of the bag has a name that
    is a non-empty run of word characters, and a value that is [null] or a
    text that holds no double quote or no apostrophe. *)
Theorem attribute_names_are_words :
  ∀ (meta k : string) (v : option string),
    (k, v) ∈ cb_attributes (parseCodeBlockAttributes meta) →
    k ≠ "" ∧ forall_chars is_word k = true ∧ one_quote_kind v.
Proof.
  intros meta k v. unfold parseCodeBlockAttributes.
  pose proof (replaceAll_entries
                (λ n v, n ≠ "" ∧ forall_chars is_word n = true ∧ one_quote_kind v)
                match_here_ok meta true 0 (false, [])) as H.
  destruct (replaceAll true 0 meta (false, [])) as [b str]. simpl in *.
  apply H. by intros x w ?%elem_of_nil.
Qed.

Lemma attribute_names_are_words_witness :
  "a_1" ≠ "" ∧ forall_chars is_word "a_1" = true
  ∧ one_quote_kind (Some "it's").
Proof.
  apply (attribute_names_are_words
           ("x a_1=" +:+ String dquote ("it's" +:+ String dquote " -y"))
           "a_1" (Some "it's")).
  vm_compute. apply elem_of_cons. right. apply list_elem_of_here.
Defined.

Lemma replaceAll_no_word s : ∀ prev b,
  forall_chars (fun c => negb (is_word c)) s = true →
  replaceAll prev 0 s b = (b, s).
Proof.
  induction s as [|c s IH]; intros prev b; [done|].
  simpl forall_chars. intros [Hc Hs]%andb_true_iff. apply negb_true_iff in Hc.
  cbn [replaceAll].
  assert (match_here (String c s) = None) as ->.
  { unfold match_here. simpl. by rewrite Hc. }
  assert ((if prev then None else None) = @None (string * option string * nat)) as ->
    by (by destruct prev).
  by rewrite IH.
Qed.

(** X5. A meta string without a word character (the empty one too) gives an
    empty bag, and its residual is the meta string trimmed. *)
Theorem no_word_no_attribute :
  ∀ meta : string,
    forall_chars (fun c => negb (is_word c)) meta = true →
    parseCodeBlockAttributes meta = {| cb_attributes := []; cb_rest := trim meta |}.
Proof.
  intros meta H. unfold parseCodeBlockAttributes. by rewrite replaceAll_no_word.
Qed.

Lemma no_word_no_attribute_witness :
  parseCodeBlockAttributes " {-} " = {| cb_attributes := []; cb_rest := trim " {-} " |}.
Proof. apply (no_word_no_attribute " {-} "). reflexivity. Defined.

(** ** What [JSON.parse] reads back from [JSON.stringify] *)

Lemma parse_quote_char c X :
  parse_string_body (quote_char c +:+ X)
  = match parse_string_body X with
    | Some (t, rest) => Some (String c t, rest)
    | None => None
    end.
Proof. destruct c as [[] [] [] [] [] [] [] []]; reflexivity. Qed.

Lemma parse_quote_body s rest :
  parse_string_body (quote_body s +:+ String dquote rest) = Some (s, rest).
Proof.
  induction s as [|c s IH]; [done|].
  cbn [quote_body]. by rewrite append_assoc_s, parse_quote_char, IH.
Qed.

Lemma stringify_members kv (o : object) :
  JSON_stringify (JObj (kv :: o)) = "{" +:+ member_text kv +:+ members_tail o.
Proof.
  cbn [JSON_stringify]. f_equal. destruct kv as [k v].
  change (quote k +:+ ":" +:+ JSON_stringify v) with (member_text (k, v)).
  generalize (member_text (k, v)) as x. clear k v.
  induction o as [|[k v] o IH]; intros x; [done|].
  change (quote k +:+ ":" +:+ JSON_stringify v) with (member_text (k, v)).
  cbn [join_with members_tail]. rewrite !append_assoc_s. do 2 f_equal.
  rewrite <- IH. done.
Qed.

Lemma parse_leaf f v rest :
  leaf v → parse_value (S f) (JSON_stringify v +:+ rest) = Some (v, rest).
Proof.
  destruct v as [| | |s| |]; try done; intros _.
  cbn [JSON_stringify]. unfold quote. rewrite append_cons, append_assoc_s.
  rewrite append_cons, append_nil. cbn [parse_value skip_ws]. change (is_json_ws dquote) with false. cbv iota.
  change (Ascii.eqb dquote "{") with false. change (Ascii.eqb dquote "[") with false.
  change (Ascii.eqb dquote dquote) with true. cbv iota.
  by rewrite parse_quote_body.
Qed.

Section Members.
Variable pv : string → option (json * string).

Lemma parse_member_text acc k v rest :
  pv (JSON_stringify v +:+ rest) = Some (v, rest) →
  parse_member pv acc (member_text (k, v) +:+ rest) = Some (obj_set k v acc, rest).
Proof.
  intros Hv. unfold member_text, quote. cbn [fst snd].
  rewrite !append_cons, !append_assoc_s, !append_cons, append_nil.
  unfold parse_member. cbn [skip_ws]. change (is_json_ws dquote) with false. cbv iota.
  cbn [strip_char]. change (Ascii.eqb dquote dquote) with true. cbv iota.
  rewrite parse_quote_body. cbn [skip_ws]. change (is_json_ws ":") with false. cbv iota.
  cbn [strip_char]. change (Ascii.eqb ":" ":") with true. cbv iota.
  rewrite ?append_nil. by rewrite Hv.
Qed.

Lemma parse_members_tail (o : object) : ∀ n acc,
  (∀ kv rest, kv ∈ o → pv (JSON_stringify (snd kv) +:+ rest) = Some (snd kv, rest)) →
  len (members_tail o) ≤ n →
  parse_members pv n acc (members_tail o) = Some (JObj (rebuild o acc), "").
Proof.
  induction o as [|[k v] o IH]; intros n acc Hpv Hn.
  - destruct n as [|n]; [simpl in Hn; lia|]. reflexivity.
  - cbn [members_tail] in *. rewrite append_cons, append_nil in *.
    cbn [String.length] in Hn. rewrite length_append_s in Hn.
    destruct n as [|n]; [lia|].
    cbn [parse_members skip_ws]. change (is_json_ws ",") with false. cbv iota.
    cbn [strip_char]. change (Ascii.eqb "," "}") with false.
    change (Ascii.eqb "," ",") with true. cbv iota.
    rewrite parse_member_text by (apply (Hpv (k, v)); apply list_elem_of_here).
    rewrite IH; [done| |lia].
    intros kv rest Hin. apply Hpv. by apply list_elem_of_further.
Qed.

End Members.

(** A plain object of texts and [null]s, printed and parsed: the object that
    the assignments of its properties build, one after the other. *)
Lemma parse_stringify_leaves (o : object) :
  Forall (fun kv => leaf (snd kv)) o →
  JSON_parse (JSON_stringify (JObj o)) = Some (JObj (rebuild o [])).
Proof.
  intros Ho. destruct o as [|[k v] o]; [reflexivity|].
  apply Forall_cons in Ho as [Hv Ho].
  unfold JSON_parse. rewrite stringify_members.
  rewrite !append_cons, append_nil.
  set (body := member_text (k, v) +:+ members_tail o).
  cbn [parse_value String.length skip_ws]. change (is_json_ws "{") with false. cbv iota.
  change (Ascii.eqb "{" "{") with true. cbv iota.
  assert (skip_ws body = body) as ->.
  { unfold body, member_text, quote. cbn [fst]. by rewrite !append_cons. }
  assert (strip_char "}" body = None) as ->.
  { unfold body, member_text, quote. cbn [fst]. by rewrite !append_cons. }
  assert (len body = S (pred (len body))) as ->.
  { unfold body, member_text, quote. cbn [fst]. by rewrite !append_cons. }
  unfold body. rewrite parse_member_text by (by apply parse_leaf).
  rewrite parse_members_tail; [done| |done].
  intros kv rest Hin. apply parse_leaf. by eapply Forall_forall in Ho.
Qed.

Lemma bag_json_leaves (b : list (string * option string)) :
  ∃ o, bag_json b = JObj o ∧ o.*1 = b.*1 ∧ Forall (fun kv => leaf (snd kv)) o.
Proof.
  unfold bag_json. eexists. split; [done|]. induction b as [|[k [s|]] b [IH1 IH2]].
  - split; [done|constructor].
  - split; [simpl; by f_equal|by constructor].
  - split; [simpl; by f_equal|by constructor].
Qed.

(** The attribute bag of any meta string comes back from its JSON text. *)
Lemma parse_stringify_bag (b : list (string * option string)) :
  keys_ordered (b.*1) →
  JSON_parse (JSON_stringify (bag_json b)) = Some (bag_json b).
Proof.
  intros Hb. destruct (bag_json_leaves b) as (o & -> & Hk & Hl).
  rewrite parse_stringify_leaves by done.
  rewrite (rebuild_ordered o []); [done|]. by rewrite app_nil_l, Hk.
Qed.

(** X6. The bag of any meta string survives the way from the rewriter to
    the renderer: parsing the JSON text written for it gives the bag back,
    with every name, value and position. *)
Theorem bag_round_trip :
  ∀ meta : string,
    let bag := cb_attributes (parseCodeBlockAttributes meta) in
    JSON_parse (JSON_stringify (bag_json bag)) = Some (bag_json bag).
Proof.
  intros meta bag. apply parse_stringify_bag, parsed_bag_ordered.
Qed.

(** ** The rewriter and the resolver, one after the other *)

Lemma build_of_bag (b : list (string * option string)) ov :
  keys_ordered (b.*1) →
  buildMermaidConfig (Some (JSON_stringify (bag_json b))) ov
  = match nested_config (bag_json b) with
    | Some nestedConfig =>
        Normal (override_theme ov
                  (match get_prop (bag_json b) "theme" with
                   | Some t => if truthy t then obj_set "theme" t (spread nestedConfig)
                               else spread nestedConfig
                   | None => spread nestedConfig
                   end))
    | None => Normal (flat_spec b ov)
    end.
Proof.
  intros Hb. rewrite (buildMermaidConfig_parsed _ (bag_json b)).
  - destruct (nested_config (bag_json b)); [done|]. apply flat_config_bag.
  - by apply parse_stringify_bag.
  - done.
Qed.

Lemma build_of_empty ov : buildMermaidConfig None ov = Normal (flat_spec [] ov).
Proof. unfold flat_spec. simpl. by rewrite app_nil_r. Qed.

Lemma visitor_config target node node' :
  visitor target node = Some node' →
  let bag := cb_attributes (parseCodeBlockAttributes (default "" (meta node))) in
  read_attribute "config" node'
  = match bag with
    | [] => None
    | _ :: _ => Some (JSON_stringify (bag_json bag))
    end.
Proof.
  unfold visitor. destruct (value node) as [v|]; [|done].
  destruct (negb _ || is_empty v); [done|]. intros [= <-]. simpl.
  unfold read_attribute, toMDX.
  by destruct (cb_attributes (parseCodeBlockAttributes (default "" (meta node)))).
Qed.

Lemma resolve_rewritten target node node' ov :
  visitor target node = Some node' →
  let bag := cb_attributes (parseCodeBlockAttributes (default "" (meta node))) in
  buildMermaidConfig (read_attribute "config" node') ov
  = match nested_config (bag_json bag) with
    | Some nestedConfig =>
        Normal (override_theme ov
                  (match get_prop (bag_json bag) "theme" with
                   | Some t => if truthy t then obj_set "theme" t (spread nestedConfig)
                               else spread nestedConfig
                   | None => spread nestedConfig
                   end))
    | None => Normal (flat_spec bag ov)
    end.
Proof.
  intros Hv. cbv zeta. rewrite (visitor_config _ _ _ Hv). cbv zeta.
  pose proof (parsed_bag_ordered (default "" (meta node))) as Ho.
  destruct (cb_attributes (parseCodeBlockAttributes (default "" (meta node)))) as [|kv b].
  - apply build_of_empty.
  - by apply build_of_bag.
Qed.

(** X7. The resolver never throws on the [config] attribute that the
    rewriter writes for a code block, whatever its meta string and whatever
    the theme override. *)
Theorem rewritten_block_resolves :
  ∀ (target : string) (node node' : Node) (themeOverride : option string),
    visitor target node = Some node' →
    ∃ cfg, buildMermaidConfig (read_attribute "config" node') themeOverride = Normal cfg.
Proof.
  intros target node node' ov Hv. rewrite (resolve_rewritten _ _ _ ov Hv).
  destruct (nested_config _); eauto.
Qed.

Lemma rewritten_block_resolves_witness :
  ∃ cfg,
    buildMermaidConfig
      (read_attribute "config"
         (Object_assign (code_node (Some "mermaid") (Some "config='null' x") "graph TD")
            (toMDX "graph TD" [("config", Some "null"); ("x", None)])))
      None
    = Normal cfg.
Proof.
  apply (rewritten_block_resolves "mermaid"
           (code_node (Some "mermaid") (Some "config='null' x") "graph TD")).
  reflexivity.
Defined.

(** X8. When the bag of a code block has no [config] attribute that parses
    as JSON (the escapes of its text being in the alphabet), the renderer
    resolves the [config] attribute the rewriter wrote to the configuration
    of the flat attributes of the bag; a block without attributes, which
    gets no [config] attribute at all, is the case of the empty bag. *)
Theorem rewritten_block_resolves_flat :
  ∀ (target : string) (node node' : Node) (themeOverride : option string),
    visitor target node = Some node' →
    let bag := cb_attributes (parseCodeBlockAttributes (default "" (meta node))) in
    nested_config (bag_json bag) = None →
    nested_in_alphabet (bag_json bag) →
    buildMermaidConfig (read_attribute "config" node') themeOverride
    = Normal (flat_spec bag themeOverride).
Proof.
  intros target node node' ov Hv bag Hn _.
  pose proof (resolve_rewritten _ _ _ ov Hv) as H. cbv zeta in H. fold bag in H.
  by rewrite Hn in H.
Qed.

Lemma rewritten_block_resolves_flat_witness :
  buildMermaidConfig
    (read_attribute "config"
       (Object_assign
          (code_node (Some "mermaid") (Some (dq "theme='forest' showBits='true' 7")) "graph TD")
          (toMDX "graph TD" [("7", None); ("theme", Some "forest"); ("showBits", Some "true")])))
    (Some "dark")
  = Normal [("theme", JStr "forest"); ("packet", JObj [("showBits", JBool true)])].
Proof.
  apply (rewritten_block_resolves_flat "mermaid"
           (code_node (Some "mermaid") (Some (dq "theme='forest' showBits='true' 7")) "graph TD")
           _ (Some "dark")); [reflexivity | reflexivity |].
  intros t H. vm_compute in H. discriminate.
Defined.

(** ** The walk over the tree *)

(** Induction over a tree: a property holds of a node when it holds of its
    children. *)
Lemma Node_induction (P : Node → Prop) :
  (∀ ty la me va na attrs ch ot,
     (∀ l, ch = Some l → Forall P l) → P (MkNode ty la me va na attrs ch ot)) →
  ∀ node, P node.
Proof.
  intros H. fix IH 1. intros [ty la me va na attrs ch ot]. apply H.
  intros l Hl. destruct ch as [l0|]; [|discriminate].
  assert (Forall P l0) as HF; [|by injection Hl as <-].
  clear -IH. revert l0.
  fix go 1. intros [|x r]; constructor; [apply IH|apply go].
Qed.

Lemma visitor_same_guard target node :
  visitor target (MkNode (type node) (lang node) (meta node) (value node) (name node)
                    (attributes node) None (others node))
  = visitor target node.
Proof. by destruct node. Qed.

Lemma visitor_not_code target node node' :
  visitor target node = Some node' → type node' = "mdxJsxFlowElement".
Proof.
  unfold visitor. destruct (value node) as [v|]; [|done].
  destruct (negb _ || _); [done|]. by intros [= <-].
Qed.

(** X9. Running the rewrite a second time changes nothing: the tree after
    one traversal is a fixed point of the traversal, for every tree and
    every target language. *)
Theorem visit_idempotent :
  ∀ (target : string) (tree : Node),
    visit target (visit target tree) = visit target tree.
Proof.
  intros target. apply Node_induction.
  intros ty la me va na attrs ch ot IH.
  assert (visit target (MkNode ty la me va na attrs
                          (match ch with Some l => Some (map (visit target) l) | None => None end) ot)
          = MkNode ty la me va na attrs
              (match ch with Some l => Some (map (visit target) l) | None => None end) ot
          ∨ string_eqb ty "code" = true) as Hd.
  { destruct (string_eqb ty "code") eqn:Ety; [by right|]. left.
    cbn [visit]. rewrite Ety. f_equal. destruct ch as [l|]; [|done]. f_equal.
    rewrite map_map. apply map_ext_Forall. by apply IH. }
  cbn [visit]. destruct (string_eqb ty "code") eqn:Ety.
  - destruct (visitor target (MkNode ty la me va na attrs ch ot)) as [node'|] eqn:Hv.
    + pose proof (visitor_not_code _ _ _ Hv) as Hty.
      pose proof (visitor_children _ _ _ Hv) as Hch.
      rewrite visit_children by (rewrite Hty; discriminate).
      rewrite Hch. by destruct node'; simpl in *; subst.
    + cbn [visit]. rewrite Ety.
      assert (visitor target
                (MkNode ty la me va na attrs
                   (match ch with Some l => Some (map (visit target) l) | None => None end) ot)
              = None) as ->.
      { rewrite <- Hv. reflexivity. }
      f_equal. destruct ch as [l|]; [|done]. f_equal.
      rewrite map_map. apply map_ext_Forall. by apply IH.
  - by destruct Hd as [Hd|Hd].
Qed.

(** X10. In a tree of the document format a node that is no [code] node
    stands at its place after the traversal with every property of its own
    (type, lang, meta, value, name, attributes and the others) and with as
    many children as before. *)
Theorem other_nodes_keep_their_properties :
  ∀ options tree path node,
    code_leaves tree = true →
    node_at path tree = Some node →
    type node ≠ "code" →
    ∃ node',
      node_at path (remarkMdxMermaid options tree) = Some node'
      ∧ type node' = type node ∧ lang node' = lang node ∧ meta node' = meta node
      ∧ value node' = value node ∧ name node' = name node
      ∧ attributes node' = attributes node ∧ others node' = others node
      ∧ length <$> children node' = length <$> children node.
Proof.
  intros options tree path node Hwf Hat Hty. unfold remarkMdxMermaid.
  eexists. split; [by apply visit_node_at|].
  rewrite visit_children by done. simpl. repeat split.
  destruct (children node) as [l|]; [|done]. simpl. by rewrite length_map.
Qed.

Lemma other_nodes_keep_their_properties_witness :
  ∃ node',
    node_at [2] (remarkMdxMermaid default_options sample_tree) = Some node'
    ∧ type node' = "blockquote"
    ∧ length <$> children node' = Some 1.
Proof.
  destruct (other_nodes_keep_their_properties default_options sample_tree [2]
              (parent_node "blockquote"
                 [code_node (Some "mermaid") (Some (dq "theme='dark' rowHeight='50'"))
                    (String newline ("  graph TD; A-->B " +:+ String newline EmptyString))])
              eq_refl eq_refl)
    as (node' & Hat & Hty & _ & _ & _ & _ & _ & _ & Hch); [discriminate|].
  exists node'. repeat split; assumption.
Defined.

Lemma node_at_visit_inv target path : ∀ tree node',
  code_leaves tree = true → node_at path (visit target tree) = Some node' →
  is_Some (node_at path tree).
Proof.
  induction path as [|i path IH]; intros tree node' Hwf Hat; [by eexists|].
  destruct (decide (type tree = "code")) as [Hty|Hty].
  - pose proof (code_leaves_code _ Hwf Hty) as Hch.
    rewrite visit_code in Hat by done.
    destruct (visitor target tree) as [t'|] eqn:Hv; simpl in Hat.
    + by rewrite (visitor_children _ _ _ Hv) in Hat.
    + by rewrite Hch in Hat.
  - rewrite visit_children in Hat by done. simpl in *.
    destruct (children tree) as [l|] eqn:Hch; [|done]. simpl in Hat.
    rewrite list_lookup_fmap in Hat.
    destruct (l !! i) as [child|] eqn:Hi; [|done]. simpl in Hat.
    destruct (code_leaves_child _ _ _ _ Hwf Hch Hi) as [_ Hc]. by eapply IH.
Qed.

(** X11. The traversal of a tree of the document format neither adds a node
    nor removes one: the places of the tree afterwards are the places it
    had before. *)
Theorem rewrite_keeps_places :
  ∀ options tree path,
    code_leaves tree = true →
    is_Some (node_at path (remarkMdxMermaid options tree)) ↔ is_Some (node_at path tree).
Proof.
  intros options tree path Hwf. unfold remarkMdxMermaid. split.
  - intros [node' Hat]. by eapply node_at_visit_inv.
  - intros [node Hat]. eexists. by apply visit_node_at.
Qed.

Lemma rewrite_keeps_places_witness :
  is_Some (node_at [2; 0] (remarkMdxMermaid default_options sample_tree))
  ↔ is_Some (node_at [2; 0] sample_tree).
Proof. apply (rewrite_keeps_places default_options sample_tree [2; 0]). reflexivity. Defined.

Lemma toMDX_no_attributes code : toMDX code [] = toMDX_v1 code.
Proof. reflexivity. Qed.

Lemma visit_v1_agrees target : ∀ tree,
  no_attributes tree = true → visit_v1 target tree = visit target tree.
Proof.
  apply (Node_induction (λ tree, no_attributes tree = true →
                                 visit_v1 target tree = visit target tree)).
  intros ty la me va na attrs ch ot IH. cbn [no_attributes].
  intros [Hme Hch]%andb_true_iff.
  assert (MkNode ty la me va na attrs
            (match ch with Some l => Some (map (visit_v1 target) l) | None => None end) ot
          = MkNode ty la me va na attrs
              (match ch with Some l => Some (map (visit target) l) | None => None end) ot)
    as Hd.
  { f_equal. destruct ch as [l|]; [|done]. f_equal.
    apply map_ext_Forall. specialize (IH l eq_refl).
    rewrite forallb_forall in Hch. rewrite Forall_forall in IH |- *.
    intros x Hx. apply IH; [done|]. by apply Hch, list_elem_of_In. }
  cbn [visit visit_v1]. rewrite Hd.
  destruct (string_eqb ty "code") eqn:Ety; [|done]. simpl in Hme.
  unfold visitor, visitor_v1. cbn [value lang meta].
  destruct va as [v|]; [|done].
  destruct (negb _ || is_empty v); [done|].
  destruct (cb_attributes (parseCodeBlockAttributes (default "" me))); [|done].
  by rewrite toMDX_no_attributes.
Qed.

(** X12. The first version of the rewriter, which did not read the meta
    string, and the current one give the same tree whenever no [code] node
    of the tree has an attribute in its meta string. *)
Theorem first_version_agrees :
  ∀ options tree,
    no_attributes tree = true →
    remarkMdxMermaid_v1 options tree = remarkMdxMermaid options tree.
Proof. intros options tree H. by apply visit_v1_agrees. Qed.

Lemma first_version_agrees_witness :
  remarkMdxMermaid_v1 default_options
    (parent_node "root"
       [code_node (Some "mermaid") (Some " {-} ") "graph TD; A-->B";
        parent_node "paragraph" [code_node (Some "js") None "x"]])
  = remarkMdxMermaid default_options
      (parent_node "root"
         [code_node (Some "mermaid") (Some " {-} ") "graph TD; A-->B";
          parent_node "paragraph" [code_node (Some "js") None "x"]]).
Proof.
  apply (first_version_agrees default_options
           (parent_node "root"
              [code_node (Some "mermaid") (Some " {-} ") "graph TD; A-->B";
               parent_node "paragraph" [code_node (Some "js") None "x"]])).
  reflexivity.
Defined.

(** ** When the resolver throws, and what the flat branch can return *)

Lemma bind_Throw {A B : Type} (c : completion A) (k : A → completion B) :
  c ≫= k = Throw ↔ c = Throw ∨ ∃ a, c = Normal a ∧ k a = Throw.
Proof.
  destruct c as [a|]; simpl; split; eauto.
  - intros [?|(a' & [= <-] & H)]; done.
Qed.

Lemma assign_if_to_int_Throw parsed k options :
  assign_if parsed k to_int options = Throw
  ↔ ∃ v, get_prop parsed k = Some v ∧ truthy v = true ∧ ToString v = None.
Proof.
  unfold assign_if, to_int. destruct (get_prop parsed k) as [v|]; [|split; [done|by intros (? & ? & _)]].
  destruct (truthy v) eqn:Ht.
  - destruct (ToString v) eqn:Hs; simpl.
    + split; [done|]. intros (v' & [= <-] & _ & H). congruence.
    + split; [eauto|done].
  - split; [done|]. intros (v' & [= <-] & H & _). congruence.
Qed.

Lemma assign_if_total parsed k conv options :
  (∀ v, ∃ x, conv v = Normal x) → ∃ o, assign_if parsed k conv options = Normal o.
Proof.
  intros Hc. unfold assign_if. destruct (get_prop parsed k) as [v|]; [|eauto].
  destruct (truthy v); [|eauto]. destruct (Hc v) as [x ->]. simpl. eauto.
Qed.

Lemma to_bool_total v : ∃ x, to_bool v = Normal x.
Proof. unfold to_bool. eauto. Qed.

Lemma as_is_total v : ∃ x, as_is v = Normal x.
Proof. unfold as_is. eauto. Qed.

Lemma flat_config_Throw parsed ov :
  flat_config parsed ov = Throw ↔ unprintable_field parsed.
Proof.
  unfold flat_config, unprintable_field, int_fields.
  set (config0 := match get_prop parsed "theme" with
                  | Some t => if truthy t then obj_set "theme" t [] else override_theme ov []
                  | None => override_theme ov []
                  end). clearbody config0.
  split.
  - intros H.
    apply bind_Throw in H as [H|(o1 & _ & H)].
    { apply assign_if_to_int_Throw in H as (v & ? & ? & ?).
      exists "rowHeight", v. repeat split; try done. set_solver. }
    apply bind_Throw in H as [H|(o2 & _ & H)].
    { apply assign_if_to_int_Throw in H as (v & ? & ? & ?).
      exists "bitsPerRow", v. repeat split; try done. set_solver. }
    apply bind_Throw in H as [H|(o3 & _ & H)].
    { destruct (assign_if_total parsed "showBits" to_bool o2 to_bool_total). congruence. }
    apply bind_Throw in H as [H|(o4 & _ & H)].
    { apply assign_if_to_int_Throw in H as (v & ? & ? & ?).
      exists "nodeSpacing", v. repeat split; try done. set_solver. }
    apply bind_Throw in H as [H|(o5 & _ & H)].
    { apply assign_if_to_int_Throw in H as (v & ? & ? & ?).
      exists "rankSpacing", v. repeat split; try done. set_solver. }
    apply bind_Throw in H as [H|(o6 & _ & H)].
    { destruct (assign_if_total parsed "curve" as_is o5 as_is_total). congruence. }
    apply bind_Throw in H as [H|(o7 & _ & H)].
    { destruct (assign_if_total parsed "mirrorActors" to_bool [] to_bool_total). congruence. }
    apply bind_Throw in H as [H|(o8 & _ & H)].
    { destruct (assign_if_total parsed "messageAlign" as_is o7 as_is_total). congruence. }
    done.
  - intros (k & v & Hk & Hg & Ht & Hs).
    assert (∀ o, assign_if parsed k to_int o = Throw) as Hthrow.
    { intros o. apply assign_if_to_int_Throw. eauto. }
    destruct (assign_if parsed "rowHeight" to_int []) as [o1|] eqn:E1; [|done].
    rewrite bind_ret.
    destruct (assign_if parsed "bitsPerRow" to_int o1) as [o2|] eqn:E2; [|done].
    rewrite bind_ret.
    destruct (assign_if parsed "showBits" to_bool o2) as [o3|] eqn:E3; [|done].
    rewrite bind_ret.
    destruct (assign_if parsed "nodeSpacing" to_int []) as [o4|] eqn:E4; [|done].
    rewrite bind_ret.
    destruct (assign_if parsed "rankSpacing" to_int o4) as [o5|] eqn:E5; [|done].
    exfalso.
    repeat (apply elem_of_cons in Hk as [->|Hk]; [congruence|]).
    by apply elem_of_nil in Hk.
Qed.

(** X13. On a serialized config within the alphabet (the escapes of the
    text and of the nested text it may hold), the resolver throws in two
    cases and in no other: the text parses to [null]; or the text parses to
    a value without a nested config that parses, and one of the four fields
    read with [parseInt] holds a value that passes the test and cannot be
    turned into a text. *)
Theorem resolver_throws_exactly :
  ∀ (configStr themeOverride : option string),
    (∀ cs, configStr = Some cs → within_alphabet cs) →
    buildMermaidConfig configStr themeOverride = Throw
    ↔ ∃ cs parsed,
        configStr = Some cs ∧ JSON_parse cs = Some parsed
        ∧ (parsed = JNull ∨ (nested_config parsed = None ∧ unprintable_field parsed)).
Proof.
  intros configStr ov _. split.
  - unfold buildMermaidConfig. destruct configStr as [cs|]; [|done].
    destruct (is_empty cs); [done|].
    destruct (JSON_parse cs) as [parsed|] eqn:Hp; [|done].
    intros H. exists cs, parsed. split; [done|]. split; [done|].
    assert (parsed = JNull
            ∨ match nested_config parsed with
              | Some _ => False
              | None => flat_config parsed ov = Throw
              end) as [->|H'].
    { destruct parsed; [by left|right..]; by destruct (nested_config _). }
    { by left. }
    right. destruct (nested_config parsed); [done|]. split; [done|].
    by apply (flat_config_Throw parsed ov).
  - intros (cs & parsed & -> & Hp & [-> | [Hn Hu]]).
    + unfold buildMermaidConfig. by rewrite (JSON_parse_nonempty _ _ Hp), Hp.
    + assert (parsed ≠ JNull) as Hnull.
      { intros ->. by destruct Hu as (k & v & _ & ? & _). }
      rewrite (buildMermaidConfig_parsed _ _ _ Hp Hnull), Hn.
      by apply (flat_config_Throw parsed ov).
Qed.

Lemma resolver_throws_exactly_witness :
  buildMermaidConfig (Some (dq "{'config':'{','rankSpacing':[{'toString':null}]}")) None
  = Throw
  ↔ ∃ cs parsed,
      Some (dq "{'config':'{','rankSpacing':[{'toString':null}]}") = Some cs
      ∧ JSON_parse cs = Some parsed
      ∧ (parsed = JNull ∨ (nested_config parsed = None ∧ unprintable_field parsed)).
Proof.
  apply (resolver_throws_exactly
           (Some (dq "{'config':'{','rankSpacing':[{'toString':null}]}")) None).
  intros cs [= <-]. split; [reflexivity|].
  intros parsed H t Ht. vm_compute in H. injection H as <-.
  vm_compute in Ht. injection Ht as <-. reflexivity.
Defined.







(** ** The component over time *)

Lemma forall_chars_app p a b :
  forall_chars p (a +:+ b) = forall_chars p a && forall_chars p b.
Proof.
  induction a as [|c a IH]; [done|]. rewrite append_cons. simpl.
  by rewrite IH, andb_assoc.
Qed.

Lemma cacheKey_not_engine chart theme configStr :
  cacheKey chart theme configStr ≠ "mermaid".
Proof.
  intros H.
  assert (forall_chars (fun c => negb (Ascii.eqb c "-")) (cacheKey chart theme configStr)
          = true) as Hk by (by rewrite H).
  unfold cacheKey in Hk. rewrite !forall_chars_app in Hk.
  apply andb_true_iff in Hk as [_ Hk]. by apply andb_true_iff in Hk as [Hk _].
Qed.

(** X15. The key of a render is never the key under which the engine is
    cached, whatever the diagram source, the theme and the config: it holds
    a hyphen, and the key of the engine holds none. *)
Theorem render_key_is_not_the_engine_key :
  ∀ (chart theme : string) (configStr : option string),
    string_eqb (cacheKey chart theme configStr) "mermaid" = false.
Proof.
  intros chart theme configStr. apply string_eqb_ne, cacheKey_not_engine.
Qed.

(** What is kept by the steps of a run is kept by the run. *)
Lemma MermaidContent_preserves (P : Store World → Prop) :
  (∀ st, P st → P (cachePromise "mermaid" import_mermaid st).2) →
  (∀ st, P st → P {| cache := cache st; world := mermaid_initialize (world st) |}) →
  (∀ st k id text, k ≠ "mermaid" → P st → P (cachePromise k (mermaid_render id text) st).2) →
  ∀ props sys id st, P st → P (MermaidContent props sys id st).2.
Proof.
  intros He Hi Hr props sys id st H. unfold MermaidContent.
  specialize (He st H). destruct (cachePromise "mermaid" import_mermaid st) as [pe st1].
  simpl in He. destruct (use pe (world st1)) as [[[|]|]|]; try done.
  specialize (Hi st1 He). destruct (diagramConfig props sys) as [cfg|]; [|done].
  specialize (Hr _ (cacheKey (chart props) (resolvedTheme (themeOverride props) sys)
                      (config props)) id (fullChart cfg (chart props))
                (cacheKey_not_engine _ _ _) Hi).
  destruct (cachePromise _ _ _) as [p st2]. simpl in Hr.
  by destruct (use p (world st2)) as [[[|]|]|].
Qed.

Lemma play_preserves (P : Store World → Prop) :
  (∀ e st, P st → P (do_event e st)) → ∀ events st, P st → P (play events st).
Proof.
  intros He events. unfold play.
  induction events as [|e events IH]; intros st H; [done|]. simpl. by apply IH, He.
Qed.

Lemma calls_match_cache_event e st : calls_match_cache st → calls_match_cache (do_event e st).
Proof.
  destruct e as [props sys id|p s]; simpl.
  - apply (MermaidContent_preserves calls_match_cache); clear.
    + intros st [Hi Hr]. unfold calls_match_cache.
      destruct (cache st !! "mermaid") as [pe|] eqn:Hc.
      * rewrite (cachePromise_hit _ _ _ _ Hc). simpl. rewrite Hc. by split.
      * rewrite (cachePromise_miss _ _ _ Hc). simpl.
        rewrite lookup_insert_eq, delete_insert_eq. split; [lia|done].
    + by intros st [Hi Hr].
    + intros st k id text Hk [Hi Hr]. unfold calls_match_cache.
      destruct (cache st !! k) as [p|] eqn:Hc.
      * rewrite (cachePromise_hit _ _ _ _ Hc). simpl. by split.
      * rewrite (cachePromise_miss _ _ _ Hc). simpl.
        rewrite lookup_insert_ne by done. split; [done|].
        rewrite length_app. simpl. rewrite delete_insert_ne by done.
        rewrite map_size_insert_None; [lia|]. by rewrite lookup_delete_ne.
  - intros [Hi Hr]. unfold calls_match_cache, settle. simpl.
    destruct (p <? next_promise (world st)); [|done].
    by destruct (settled (world st) !! p).
Qed.

(** X16. However requests are run and promises settled on a fresh page, the
    engine module has been imported once if its key is cached and not at all
    otherwise, so at most once; and the engine has been asked to render as
    many times as the cache has render keys, once for each. *)
Theorem engine_calls_match_cache :
  ∀ events : list event,
    let st := play events init_store in
    calls_match_cache st ∧ imports (world st) ≤ 1.
Proof.
  intros events st.
  assert (calls_match_cache st) as H.
  { apply play_preserves; [apply calls_match_cache_event|]. split; reflexivity. }
  split; [done|]. destruct H as [-> _]. destruct (cache st !! "mermaid"); lia.
Qed.

Lemma extends_refl st : extends st st.
Proof. by split. Qed.

Lemma extends_trans st1 st2 st3 : extends st1 st2 → extends st2 st3 → extends st1 st3.
Proof. intros [? ?] [? ?]. split; by etrans. Qed.

Lemma cachePromise_extends k (f : World → Promise * World) st :
  (∀ w, settled (f w).2 = settled w) → extends st (cachePromise k f st).2.
Proof.
  intros Hf. destruct (cache st !! k) as [p|] eqn:Hc.
  - rewrite (cachePromise_hit _ _ _ _ Hc). apply extends_refl.
  - rewrite (cachePromise_miss _ _ _ Hc). split; simpl.
    + by apply insert_subseteq.
    + by rewrite Hf.
Qed.

Lemma do_event_extends e st : extends st (do_event e st).
Proof.
  destruct e as [props sys id|p s]; simpl.
  - apply (MermaidContent_preserves (extends st)).
    + intros st' H. eapply extends_trans; [exact H|]. by apply cachePromise_extends.
    + intros st' H. eapply extends_trans; [exact H|]. by split.
    + intros st' k id' text _ H. eapply extends_trans; [exact H|].
      by apply cachePromise_extends.
    + apply extends_refl.
  - split; simpl; [done|]. unfold settle.
    destruct (p <? next_promise (world st)); [|done].
    destruct (settled (world st) !! p) eqn:Hp; [done|]. simpl.
    by apply insert_subseteq.
Qed.

Lemma play_extends events st : extends st (play events st).
Proof.
  apply (play_preserves (extends st)); [|apply extends_refl].
  intros e st' H. eapply extends_trans; [exact H|]. apply do_event_extends.
Qed.

(** X17. Nothing is ever taken out of the cache, and no settlement is ever
    changed: after any runs and settlements, every key of the cache still
    holds the promise it held, and every settled promise the outcome it
    had. *)
Theorem cache_entries_are_permanent :
  ∀ (events : list event) (st : Store World),
    (∀ k p, cache st !! k = Some p → cache (play events st) !! k = Some p)
    ∧ (∀ p s, settled (world st) !! p = Some s →
              settled (world (play events st)) !! p = Some s).
Proof.
  intros events st. destruct (play_extends events st) as [Hc Hs].
  split; intros ? ? H; by eapply lookup_weaken.
Qed.

(** How a run ends is decided by the two cache entries it reads and their
    settlements. *)
Lemma outcome_stable props sys id id' st st' :
  (∀ p, (MermaidContent props sys id st).1 ≠ Suspends p) →
  extends (MermaidContent props sys id st).2 st' →
  (MermaidContent props sys id' st').1 = (MermaidContent props sys id st).1.
Proof.
  intros Hr. unfold MermaidContent at 1 3. unfold MermaidContent in Hr.
  pose proof (cachePromise_cached "mermaid" import_mermaid st) as He.
  destruct (cachePromise "mermaid" import_mermaid st) as [pe st1]. simpl in He.
  assert (∀ s, use pe (world st1) = Some s →
               match s with
               | Fulfilled MermaidModule => False
               | _ => True
               end →
               extends st1 st' → (MermaidContent props sys id' st').1 = Fails) as Hbad.
  { intros s Hu Hs [Hc Hw]. unfold MermaidContent.
    rewrite (cachePromise_hit _ _ _ pe) by (by eapply lookup_weaken).
    unfold use. rewrite (lookup_weaken _ _ _ _ Hu Hw). by destruct s as [[|]|]. }
  destruct (use pe (world st1)) as [[[|svg0 bf0]|]|] eqn:Hu.
  - set (st1i := {| cache := cache st1; world := mermaid_initialize (world st1) |}) in *.
    destruct (diagramConfig props sys) as [cfg|] eqn:Hd.
    + set (key := cacheKey (chart props) (resolvedTheme (themeOverride props) sys)
                    (config props)) in *.
      pose proof (cachePromise_cached key
                    (mermaid_render id (fullChart cfg (chart props))) st1i) as Hk.
      pose proof (cachePromise_mono key (mermaid_render id (fullChart cfg (chart props)))
                    st1i "mermaid" pe He) as He2.
      pose proof (cachePromise_extends key (mermaid_render id (fullChart cfg (chart props)))
                    st1i (λ w, eq_refl)) as [_ Hs2].
      destruct (cachePromise key _ st1i) as [p st2]. simpl in Hk, He2, Hs2.
      destruct (use p (world st2)) as [[[|svg bf]|]|] eqn:Hp; [..|by destruct (Hr p)].
      all: intros [Hc Hw]; simpl in Hc, Hw; unfold MermaidContent.
      all: rewrite (cachePromise_hit _ _ _ pe) by (by eapply lookup_weaken).
      all: assert (settled (world st') !! pe = Some (Fulfilled MermaidModule)) as Hpe
        by (eapply lookup_weaken; [eapply lookup_weaken; [exact Hu|exact Hs2]|exact Hw]).
      all: unfold use at 1; rewrite Hpe.
      all: rewrite Hd; fold key.
      all: rewrite (cachePromise_hit _ _ {| cache := cache st'; world := _ |} p)
        by (by eapply lookup_weaken).
      all: unfold use; cbn [world mermaid_initialize settled].
      all: by rewrite (lookup_weaken _ _ _ _ Hp Hw).
    + intros [Hc Hw]. simpl in Hc, Hw. unfold MermaidContent.
      rewrite (cachePromise_hit _ _ _ pe) by (by eapply lookup_weaken).
      unfold use. rewrite (lookup_weaken (settled (world st1)) _ pe _ Hu Hw).
      by rewrite Hd.
  - intros H. by rewrite (Hbad _ eq_refl I H).
  - intros H. by rewrite (Hbad _ eq_refl I H).
  - by destruct (Hr pe).
Qed.

(** X18. Once a run of the component for a request has ended without
    suspending, with an element or with a failure, every later run for that
    request and ambient theme ends the same way, whatever was run and
    settled in between and whatever its id: a diagram that is shown keeps
    its SVG, and a render that failed is not tried again. *)
Theorem outcome_is_final :
  ∀ props (systemTheme : option string) (id id' : string) (events : list event)
    (st : Store World),
    let first := MermaidContent props systemTheme id st in
    (∀ p, first.1 ≠ Suspends p) →
    (MermaidContent props systemTheme id' (play events first.2)).1 = first.1.
Proof.
  intros props sys id id' events st first H.
  apply outcome_stable; [done|]. apply play_extends.
Qed.

Lemma outcome_is_final_witness :
  let props := sample_props "margin: 0;" None in
  let shown :=
    play [Run props (Some "dark") "r1"; Settle 0 (Fulfilled MermaidModule);
          Run props (Some "dark") "r2";
          Settle 1 (Fulfilled (RenderResult "<svg/>" true))] init_store in
  (MermaidContent props (Some "dark") "r4"
     (play [Settle 1 Rejected; Run (sample_props "margin: 0;" (Some "null")) None "r5"]
        (MermaidContent props (Some "dark") "r3" shown).2)).1
  = Element "<svg/>" true false.
Proof.
  intros props shown.
  apply (outcome_is_final props (Some "dark") "r3" "r4"
           [Settle 1 Rejected; Run (sample_props "margin: 0;" (Some "null")) None "r5"]
           shown).
  intros p H. vm_compute in H. discriminate.
Defined.







(** ** The residual of the meta string, and requests that share a key *)

Lemma replaceAll_length s : ∀ prev skip b, len (replaceAll prev skip s b).2 ≤ len s.
Proof.
  induction s as [|c s IH]; intros prev skip b; [done|].
  cbn [replaceAll]. destruct skip as [|k].
  - destruct (if prev then match_here (String c s) else None) as [[[n v] l]|].
    + specialize (IH (is_space c) (Nat.pred l) (bag_set n v b)). simpl. lia.
    + specialize (IH (is_space c) 0 b).
      destruct (replaceAll (is_space c) 0 s b) as [b' out]. simpl in *. lia.
  - specialize (IH (is_space c) k b). simpl. lia.
Qed.

(** X20. Whatever the meta string, the residual the parser returns is no
    longer than the meta string, and it neither starts nor ends with white
    space. *)
Theorem residual_is_trimmed :
  ∀ meta : string,
    let rest := cb_rest (parseCodeBlockAttributes meta) in
    len rest ≤ len meta
    ∧ starts_with_space rest = false ∧ ends_with_space rest = false.
Proof.
  intros meta. unfold parseCodeBlockAttributes.
  pose proof (replaceAll_length meta true 0 (false, [])) as Hl.
  destruct (replaceAll true 0 meta (false, [])) as [b str]. simpl in *.
  destruct (trim_spec str) as (l & r & Hs & _ & _ & H1 & H2).
  split; [|done].
  apply (f_equal String.length) in Hs. rewrite !length_append_s in Hs. lia.
Qed.



(** ** The source given to the engine *)




